(** * The Freeplay span exporter

    A shallow embedding of [dist/freeplay-exporter.js]: the class
    [FreeplayExporter] with its methods [formatTraceIdToUUID],
    [extractInputs], [export], [forceFlush] and [shutdown].

    The synchronous code is embedded as functions.  Exceptions are explicit
    ([Completion]); the mutable field [this.pendingExports], the console and
    the requests handed to [fetch] live in a [World] that is threaded through
    the code.  The asynchronous part (promise reactions, [await]) is a
    labelled transition system over that [World]: one [Event] per turn of the
    event loop that concerns the exporter. *)

From Stdlib Require Import ZArith String Ascii List Bool Lia.
From stdpp Require Import base option list gmap strings pretty.

Open Scope string_scope.

(** ** JavaScript strings

    A [string] stands for a JavaScript string, one character per code unit.
    [length] and [slice] of the source count code units, as [String.length]
    and the functions below count characters. *)

(** [s.slice(from)], for a non-negative [from]. *)
Fixpoint slice_from (from : nat) (s : string) : string :=
  match from, s with
  | S n, String _ s' => slice_from n s'
  | _, _ => s
  end.

(** [s.slice(from, to)], for non-negative [from] and [to]. *)
Definition slice (from to : nat) (s : string) : string :=
  substring from (to - from) s.

(** [s.startsWith(p)]. *)
Fixpoint startsWith (s p : string) {struct p} : bool :=
  match p, s with
  | EmptyString, _ => true
  | String a p', String b s' => if Ascii.eqb a b then startsWith s' p' else false
  | String _ _, EmptyString => false
  end.

(** [s.charAt(i)], as an option. *)
Definition charAt (i : nat) (s : string) : option ascii := String.get i s.

(** ** Exceptions *)

Inductive ErrorKind := PlainError | TypeError | SyntaxError.

Record JsError := mkError { kind : ErrorKind; message : string }.

(** The completion of a piece of synchronous code: a value, or a throw. *)
Inductive Completion (A : Type) :=
| Return (a : A)
| Throw (e : JsError).
Arguments Return {A} a.
Arguments Throw {A} e.

(** ** Attribute values

    The values a span attribute can hold here: absent or [undefined], [null],
    booleans, numbers (the integer-valued ones) and strings. *)
Inductive Value :=
| VUndefined
| VNull
| VBool (b : bool)
| VNumber (n : Z)
| VString (s : string).

#[global] Instance Value_eq_dec : EqDecision Value.
Proof. solve_decision. Defined.

(** The condition of [if (v)]: [undefined], [null], [false], [0] and the
    empty string are falsy. *)
Definition truthy (v : Value) : bool :=
  match v with
  | VUndefined | VNull => false
  | VBool b => b
  | VNumber n => negb (n =? 0)%Z
  | VString s => negb (String.eqb s "")
  end.

(** [obj[key]] on an attributes object: a missing key reads as [undefined]. *)
Definition get_property (obj : gmap string Value) (key : string) : Value :=
  default VUndefined (obj !! key).

(** [obj[key] = value] on an object made by the literal [{}], for a primitive
    [value].  The prototype of such an object is [Object.prototype], whose
    accessor property [__proto__] takes the assignment to that key; its setter
    ignores a value that is neither an object nor [null], and no own property
    is created.  Every other key becomes (or updates) an own property. *)
Definition set_property (obj : gmap string Value) (key : string) (value : Value)
  : gmap string Value :=
  if decide (key = "__proto__") then obj else <[key := value]> obj.

(** ** JSON *)

#[local] Set Warnings "-register-all".

Inductive JSON :=
| JNull
| JBool (b : bool)
| JNum (n : Z)
| JStr (s : string)
| JArr (items : list JSON)
| JObj (members : list (string * JSON)).

(** The built-ins of the host that the exporter relies on to go between text
    and values.  [JSON.parse] either rejects a text with a [SyntaxError] or
    yields a value.  The conversion of a number to a string prints an integer
    up to 2^53 in plain decimal; beyond that it prints the shortest digits
    that identify the number, in exponent form from 10^21 on, and is left to
    the host here.  The exporter is embedded over any such host. *)
Class JsonParser := {
  JSON_parse : string → Completion JSON;
  Number_toString : Z → string;
  Number_toString_safe :
    ∀ n : Z, (Z.abs n ≤ 2 ^ 53)%Z → Number_toString n = pretty n
}.

(** [String(v)]. *)
Definition ToString `{JsonParser} (v : Value) : string :=
  match v with
  | VUndefined => "undefined"
  | VNull => "null"
  | VBool true => "true"
  | VBool false => "false"
  | VNumber n => Number_toString n
  | VString s => s
  end.

(** [messages.push(item)]: arrays have [push].  Reading [push] off [null]
    throws a [TypeError]; on every other value JSON can produce the member is
    missing or not callable, and the call throws a [TypeError]. *)
Definition push (messages : JSON) (item : JSON) : Completion JSON :=
  match messages with
  | JArr items => Return (JArr (items ++ [item]))
  | JNull => Throw (mkError TypeError "Cannot read properties of null (reading 'push')")
  | _ => Throw (mkError TypeError "messages.push is not a function")
  end.

(** *** A reference parser

    Used for the worked examples only: JSON with integer numbers and with the
    two-character escapes in strings.  It rejects fractions, exponents and
    [\u] escapes, which the host accepts; it keeps every member of an object
    where the host keeps the last of a repeated key, and every digit of an
    integer where the host rounds beyond 2^53; the texts of its errors are its
    own.  The worked inputs stay clear of all of these. *)
Module RefParser.

Definition quote : ascii := "034"%char.
Definition backslash : ascii := "092"%char.

Definition is_ws (c : ascii) : bool :=
  Ascii.eqb c " " || Ascii.eqb c "009" || Ascii.eqb c "010" || Ascii.eqb c "013".

Definition digit (c : ascii) : option Z :=
  let n := nat_of_ascii c in
  if (48 <=? n)%nat && (n <=? 57)%nat then Some (Z.of_nat (n - 48)) else None.

Fixpoint skip_ws (s : string) : string :=
  match s with
  | String c s' => if is_ws c then skip_ws s' else s
  | EmptyString => s
  end.

(** The rest of [s] after the literal [lit]. *)
Fixpoint expect (lit s : string) : option string :=
  match lit, s with
  | EmptyString, _ => Some s
  | String a lit', String b s' => if Ascii.eqb a b then expect lit' s' else None
  | String _ _, EmptyString => None
  end.

Definition unescape (c : ascii) : option ascii :=
  if Ascii.eqb c quote then Some quote
  else if Ascii.eqb c backslash then Some backslash
  else if Ascii.eqb c "/" then Some "/"%char
  else if Ascii.eqb c "b" then Some "008"%char
  else if Ascii.eqb c "f" then Some "012"%char
  else if Ascii.eqb c "n" then Some "010"%char
  else if Ascii.eqb c "r" then Some "013"%char
  else if Ascii.eqb c "t" then Some "009"%char
  else None.

(** The characters of a string literal, from just after its opening quote. *)
Fixpoint lex_string (s : string) : option (string * string) :=
  match s with
  | EmptyString => None
  | String c s' =>
      if Ascii.eqb c quote then Some (EmptyString, s')
      else if Ascii.eqb c backslash then
        match s' with
        | String e s'' =>
            match unescape e, lex_string s'' with
            | Some c', Some (str, rest) => Some (String c' str, rest)
            | _, _ => None
            end
        | EmptyString => None
        end
      else if (nat_of_ascii c <? 32)%nat then None
      else match lex_string s' with
           | Some (str, rest) => Some (String c str, rest)
           | None => None
           end
  end.

Fixpoint lex_digits (acc : Z) (s : string) : Z * string :=
  match s with
  | String c s' =>
      match digit c with
      | Some d => lex_digits (10 * acc + d)%Z s'
      | None => (acc, s)
      end
  | EmptyString => (acc, s)
  end.

(** An integer without sign: [0], or a non-zero digit and more digits. *)
Definition lex_nat (s : string) : option (Z * string) :=
  match s with
  | String c s' =>
      match digit c with
      | Some 0%Z => Some (0%Z, s')
      | Some d => Some (lex_digits d s')
      | None => None
      end
  | EmptyString => None
  end.

(** A fraction or an exponent is outside the fragment. *)
Definition ends_number (s : string) : bool :=
  match s with
  | String c _ => negb (Ascii.eqb c "." || Ascii.eqb c "e" || Ascii.eqb c "E")
  | EmptyString => true
  end.

Definition lex_number (s : string) : option (Z * string) :=
  let signed :=
    match s with
    | String c s' =>
        if Ascii.eqb c "-"
        then match lex_nat s' with
             | Some (n, rest) => Some ((- n)%Z, rest)
             | None => None
             end
        else lex_nat s
    | EmptyString => None
    end in
  match signed with
  | Some (n, rest) => if ends_number rest then Some (n, rest) else None
  | None => None
  end.

Fixpoint parse_value (fuel : nat) (s : string) : option (JSON * string) :=
  match fuel with
  | O => None
  | S fuel' =>
      match skip_ws s with
      | EmptyString => None
      | String c rest =>
          if Ascii.eqb c "n" then pair JNull <$> expect "ull" rest
          else if Ascii.eqb c "t" then pair (JBool true) <$> expect "rue" rest
          else if Ascii.eqb c "f" then pair (JBool false) <$> expect "alse" rest
          else if Ascii.eqb c quote then
            match lex_string rest with
            | Some (str, rest') => Some (JStr str, rest')
            | None => None
            end
          else if Ascii.eqb c "[" then
            match expect "]" (skip_ws rest) with
            | Some rest' => Some (JArr [], rest')
            | None =>
                match parse_elements fuel' rest with
                | Some (items, rest') => Some (JArr items, rest')
                | None => None
                end
            end
          else if Ascii.eqb c "{" then
            match expect "}" (skip_ws rest) with
            | Some rest' => Some (JObj [], rest')
            | None =>
                match parse_members fuel' rest with
                | Some (members, rest') => Some (JObj members, rest')
                | None => None
                end
            end
          else
            match lex_number (String c rest) with
            | Some (n, rest') => Some (JNum n, rest')
            | None => None
            end
      end
  end
with parse_elements (fuel : nat) (s : string) : option (list JSON * string) :=
  match fuel with
  | O => None
  | S fuel' =>
      match parse_value fuel' s with
      | Some (v, rest) =>
          match skip_ws rest with
          | String c rest' =>
              if Ascii.eqb c "," then
                match parse_elements fuel' rest' with
                | Some (vs, rest'') => Some (v :: vs, rest'')
                | None => None
                end
              else if Ascii.eqb c "]" then Some ([v], rest')
              else None
          | EmptyString => None
          end
      | None => None
      end
  end
with parse_members (fuel : nat) (s : string) : option (list (string * JSON) * string) :=
  match fuel with
  | O => None
  | S fuel' =>
      match expect (String quote EmptyString) (skip_ws s) with
      | Some s1 =>
          match lex_string s1 with
          | Some (key, s2) =>
              match expect ":" (skip_ws s2) with
              | Some s3 =>
                  match parse_value fuel' s3 with
                  | Some (v, rest) =>
                      match skip_ws rest with
                      | String c rest' =>
                          if Ascii.eqb c "," then
                            match parse_members fuel' rest' with
                            | Some (ms, rest'') => Some ((key, v) :: ms, rest'')
                            | None => None
                            end
                          else if Ascii.eqb c "}" then Some ([(key, v)], rest')
                          else None
                      | EmptyString => None
                      end
                  | None => None
                  end
              | None => None
              end
          | None => None
          end
      | None => None
      end
  end.

Definition parse (text : string) : Completion JSON :=
  match parse_value (2 * String.length text + 2) text with
  | Some (v, rest) =>
      match skip_ws rest with
      | EmptyString => Return v
      | String _ _ => Throw (mkError SyntaxError "Unexpected non-whitespace character after JSON")
      end
  | None => Throw (mkError SyntaxError "Unexpected token in JSON")
  end.

End RefParser.

(** ** Spans *)

(** What the exporter reads of a [ReadableSpan]: its [name], the [traceId] of
    its [spanContext()] and its [attributes]. *)
Record ReadableSpan := mkSpan {
  name : string;
  traceId : string;
  attributes : gmap string Value
}.

(** ** [formatTraceIdToUUID] *)

Definition formatTraceIdToUUID (traceId : string) : Completion string :=
  if negb (String.length traceId =? 32)%nat then
    Throw (mkError PlainError "Invalid traceId length; expected 32 characters")
  else
    Return (slice 0 8 traceId ++ "-" ++ slice 8 12 traceId ++ "-"
            ++ slice 12 16 traceId ++ "-" ++ slice 16 20 traceId ++ "-"
            ++ slice_from 20 traceId).

(** The characters of a UUID string other than those at positions 8, 13, 18
    and 23, in order. *)
Definition without_hyphen_positions (u : string) : string :=
  slice 0 8 u ++ slice 9 13 u ++ slice 14 18 u ++ slice 19 23 u ++ slice_from 24 u.

Definition is_lower_hex (c : ascii) : bool :=
  let n := nat_of_ascii c in
  ((48 <=? n)%nat && (n <=? 57)%nat) || ((97 <=? n)%nat && (n <=? 102)%nat).

Fixpoint all_chars (p : ascii → bool) (s : string) : bool :=
  match s with
  | EmptyString => true
  | String c s' => p c && all_chars p s'
  end.

(** A 32-character lowercase-hex string. *)
Definition lower_hex32 (t : string) : Prop :=
  String.length t = 32%nat ∧ all_chars is_lower_hex t = true.

(** ** [extractInputs] *)

Definition inputs_prefix : string := "ai.telemetry.metadata.inputs.".

(** The body of the loop over [Object.entries(attributes)]. *)
Definition extractInputs_entry (inputs : gmap string Value) (entry : string * Value)
  : gmap string Value :=
  let '(key, value) := entry in
  if startsWith key inputs_prefix then
    let inputKey := slice_from (String.length inputs_prefix) key in
    if bool_decide (value ≠ VNull) && bool_decide (value ≠ VUndefined)
    then set_property inputs inputKey value
    else inputs
  else inputs.

(** [Object.entries(attributes)] lists the own entries, each key once. *)
Definition extractInputs (attributes : gmap string Value) : gmap string Value :=
  foldl extractInputs_entry ∅ (map_to_list attributes).

(** ** The exporter object and its world *)

Record FreeplayConfig := mkConfig {
  config_baseUrl : option string;
  config_projectId : string;
  config_apiKey : string;
  config_environment : string
}.

(** A promise made by [export] is named by the number of the [fetch] call
    that started its chain. *)
Definition Handle := nat.

Record FreeplayExporter := mkExporter {
  pendingExports : list Handle;
  baseUrl : string;
  projectId : string;
  apiKey : string;
  environment : string
}.

(** [config.baseUrl || "https://app.freeplay.ai/api/v2"]: an absent or empty
    base URL gives the default. *)
Definition constructor (config : FreeplayConfig) : FreeplayExporter :=
  {| pendingExports := [];
     baseUrl := match config_baseUrl config with
                | Some u => if String.eqb u "" then "https://app.freeplay.ai/api/v2" else u
                | None => "https://app.freeplay.ai/api/v2"
                end;
     projectId := config_projectId config;
     apiKey := config_apiKey config;
     environment := config_environment config |}.

Record PromptInfo := mkPromptInfo {
  prompt_template_version_id : Value;
  prompt_info_environment : string
}.

Record CompletionPayload := mkPayload {
  messages : JSON;
  inputs : gmap string Value;
  prompt_info : PromptInfo
}.

(** The arguments of one [fetch] call; [body] is the payload that
    [JSON.stringify] serialises. *)
Record Request := mkRequest {
  url : string;
  method : string;
  headers : list (string * string);
  body : CompletionPayload
}.

(** A delivery: the request, and the name of the span it was made for (the
    [span] captured by the [catch] handler). *)
Record Delivery := mkDelivery {
  request : Request;
  span_name : string
}.

Inductive PromiseState (A : Type) :=
| Fulfilled (value : A)
| Rejected (reason : JsError).
Arguments Fulfilled {A} value.
Arguments Rejected {A} reason.

Definition is_rejected {A} (r : PromiseState A) : bool :=
  match r with Rejected _ => true | Fulfilled _ => false end.

Record Response := mkResponse { status : Z }.

(** [response.ok]: the status is in the range 200-299. *)
Definition ok (response : Response) : bool :=
  (200 <=? status response)%Z && (status response <=? 299)%Z.

Record ExportResult := mkResult {
  code : Z;
  error : option JsError
}.

Inductive ConsoleLine :=
| console_warn (msg : string)
| console_error (msg : string).

(** Code waiting for promises: the reaction registered on
    [Promise.allSettled(promises)] by the export call [call], and the bodies
    of [forceFlush] and [shutdown] suspended at their [await]. *)
Inductive Task :=
| Aggregation (call : nat) (promises : list Handle)
| InForceFlush (call : nat) (awaited : list Handle)
| InShutdown (call : nat) (awaited : list Handle).

Record World := mkWorld {
  this : FreeplayExporter;
  (** lines written to the console, oldest first *)
  console : list ConsoleLine;
  (** the calls of [fetch], oldest first; call number [h] made promise [h] *)
  deliveries : list Delivery;
  (** the delivery promises settled so far, with their state *)
  settled : gmap Handle (PromiseState unit);
  (** suspended code *)
  tasks : list Task;
  (** completions of the calls of [export], oldest first *)
  export_calls : list (Completion unit);
  (** invocations of [resultCallback]: the export call it was passed to, and
      the result it received *)
  callback_calls : list (nat * ExportResult);
  (** number of calls of [forceFlush] and [shutdown] so far *)
  async_calls : nat;
  (** the promises returned by those calls that are settled, with their state *)
  async_settled : gmap nat (PromiseState unit)
}.

Definition new_world (config : FreeplayConfig) : World :=
  {| this := constructor config; console := []; deliveries := []; settled := ∅;
     tasks := []; export_calls := []; callback_calls := []; async_calls := 0;
     async_settled := ∅ |}.

(** *** Field updates *)

Definition set_pendingExports (l : list Handle) (w : World) : World :=
  {| this := {| pendingExports := l; baseUrl := baseUrl (this w);
                projectId := projectId (this w); apiKey := apiKey (this w);
                environment := environment (this w) |};
     console := console w; deliveries := deliveries w; settled := settled w;
     tasks := tasks w; export_calls := export_calls w;
     callback_calls := callback_calls w; async_calls := async_calls w;
     async_settled := async_settled w |}.

Definition write_console (line : ConsoleLine) (w : World) : World :=
  {| this := this w; console := console w ++ [line]; deliveries := deliveries w;
     settled := settled w; tasks := tasks w; export_calls := export_calls w;
     callback_calls := callback_calls w; async_calls := async_calls w;
     async_settled := async_settled w |}.

(** [fetch(url, init)]: the request goes out.  The call returns a promise; it
    throws nothing. *)
Definition fetch (d : Delivery) (w : World) : World :=
  {| this := this w; console := console w; deliveries := deliveries w ++ [d];
     settled := settled w; tasks := tasks w; export_calls := export_calls w;
     callback_calls := callback_calls w; async_calls := async_calls w;
     async_settled := async_settled w |}.

Definition set_settled (m : gmap Handle (PromiseState unit)) (w : World) : World :=
  {| this := this w; console := console w; deliveries := deliveries w;
     settled := m; tasks := tasks w; export_calls := export_calls w;
     callback_calls := callback_calls w; async_calls := async_calls w;
     async_settled := async_settled w |}.

Definition set_tasks (l : list Task) (w : World) : World :=
  {| this := this w; console := console w; deliveries := deliveries w;
     settled := settled w; tasks := l; export_calls := export_calls w;
     callback_calls := callback_calls w; async_calls := async_calls w;
     async_settled := async_settled w |}.

Definition export_returns (c : Completion unit) (w : World) : World :=
  {| this := this w; console := console w; deliveries := deliveries w;
     settled := settled w; tasks := tasks w; export_calls := export_calls w ++ [c];
     callback_calls := callback_calls w; async_calls := async_calls w;
     async_settled := async_settled w |}.

(** [resultCallback(result)], for the callback of export call [call]. *)
Definition invoke_callback (call : nat) (result : ExportResult) (w : World) : World :=
  {| this := this w; console := console w; deliveries := deliveries w;
     settled := settled w; tasks := tasks w; export_calls := export_calls w;
     callback_calls := callback_calls w ++ [(call, result)];
     async_calls := async_calls w; async_settled := async_settled w |}.

Definition count_async_call (w : World) : World :=
  {| this := this w; console := console w; deliveries := deliveries w;
     settled := settled w; tasks := tasks w; export_calls := export_calls w;
     callback_calls := callback_calls w; async_calls := S (async_calls w);
     async_settled := async_settled w |}.

Definition settle_async (call : nat) (r : PromiseState unit) (w : World) : World :=
  {| this := this w; console := console w; deliveries := deliveries w;
     settled := settled w; tasks := tasks w; export_calls := export_calls w;
     callback_calls := callback_calls w; async_calls := async_calls w;
     async_settled := <[call := r]> (async_settled w) |}.

(** ** [export] *)

Definition relevant_names : list string :=
  ["ai.generateText.doGenerate"; "ai.streamText.doStream"].

(** [names.includes(x)] on an array of strings. *)
Definition includes (names : list string) (x : string) : bool :=
  existsb (String.eqb x) names.

(** What one turn of the loop over [spans] comes to: the span is passed over,
    or it is dropped with a warning ([continue]), or its request is built, or
    a statement of the loop body throws outside every [try]. *)
Inductive SpanOutcome :=
| Ignored
| Dropped (warning : string)
| Built (request : Request)
| Raised (e : JsError).

Definition assistant_message `{JsonParser} (responseText : Value) : JSON :=
  JObj [("role", JStr "assistant"); ("content", JStr (ToString responseText))].

Section ExportMethod.
Context `{JsonParser}.

(** The body of the loop, up to the call of [fetch]. *)
Definition process_span (self : FreeplayExporter) (span : ReadableSpan) : SpanOutcome :=
  if includes relevant_names (name span) then
    match formatTraceIdToUUID (traceId span) with
    | Throw error =>
        Dropped ("Skipping span " ++ name span ++ " due to invalid traceId: "
                 ++ message error)
    | Return sessionId =>
        let functionId := get_property (attributes span) "ai.telemetry.functionId" in
        if negb (truthy functionId) then
          Dropped ("Missing ai.telemetry.functionId for span " ++ name span)
        else
          let promptMessagesStr := get_property (attributes span) "ai.prompt.messages" in
          if truthy promptMessagesStr then
            match JSON_parse (ToString promptMessagesStr) with
            | Throw error =>
                Dropped ("Failed to parse ai.prompt.messages for span " ++ name span
                         ++ ": " ++ message error)
            | Return parsed =>
                let responseText := get_property (attributes span) "ai.response.text" in
                match (if truthy responseText
                       then push parsed (assistant_message responseText)
                       else Return parsed) with
                | Throw e => Raised e
                | Return msgs =>
                    Built
                      {| url := baseUrl self ++ "/projects/" ++ projectId self
                                ++ "/sessions/" ++ sessionId ++ "/completions";
                         method := "POST";
                         headers := [("Content-Type", "application/json");
                                     ("Authorization", "Bearer " ++ apiKey self)];
                         body := {| messages := msgs;
                                    inputs := extractInputs (attributes span);
                                    prompt_info :=
                                      {| prompt_template_version_id := functionId;
                                         prompt_info_environment := environment self |}
                                 |} |}
                end
            end
          else Dropped ("Missing ai.prompt.messages for span " ++ name span)
    end
  else Ignored.

(** The loop [for (const span of spans)], with the local array [promises]. *)
Fixpoint export_loop (spans : list ReadableSpan) (promises : list Handle) (w : World)
  : World * Completion (list Handle) :=
  match spans with
  | [] => (w, Return promises)
  | span :: rest =>
      match process_span (this w) span with
      | Ignored => export_loop rest promises w
      | Dropped warning => export_loop rest promises (write_console (console_warn warning) w)
      | Built req =>
          let promise := length (deliveries w) in
          let w1 := fetch {| request := req; span_name := name span |} w in
          let w2 := set_pendingExports (pendingExports (this w1) ++ [promise]) w1 in
          export_loop rest (promises ++ [promise]) w2
      | Raised e => (w, Throw e)
      end
  end.

(** [export(spans, resultCallback)], for the callback of export call [call]. *)
Definition export (spans : list ReadableSpan) (call : nat) (w : World)
  : World * Completion unit :=
  match export_loop spans [] w with
  | (w1, Throw e) => (w1, Throw e)
  | (w1, Return promises) =>
      if (length promises =? 0)%nat then
        (invoke_callback call {| code := 0; error := None |} w1, Return tt)
      else
        (set_tasks (tasks w1 ++ [Aggregation call promises]) w1, Return tt)
  end.

End ExportMethod.

(** ** The promise chain of a delivery *)

(** [.then((response) => { if (!response.ok) throw new Error(...) })] *)
Definition then_check_ok (p : PromiseState Response) : PromiseState unit :=
  match p with
  | Fulfilled response =>
      if negb (ok response)
      then Rejected (mkError PlainError ("HTTP error! status: " ++ pretty (status response)))
      else Fulfilled tt
  | Rejected reason => Rejected reason
  end.

(** [.catch((error) => { ...; console.error(...) })]: the handler logs and
    returns normally. *)
Definition catch_log (span : string) (p : PromiseState unit) (w : World)
  : PromiseState unit * World :=
  match p with
  | Fulfilled v => (Fulfilled v, w)
  | Rejected err =>
      (Fulfilled tt,
       write_console (console_error ("Failed to export span " ++ span ++ " to Freeplay: "
                                     ++ message err)) w)
  end.

(** [.finally(() => { this.pendingExports = this.pendingExports.filter((p) => p !== promise) })] *)
Definition finally_remove (promise : Handle) (p : PromiseState unit) (w : World)
  : PromiseState unit * World :=
  (p, set_pendingExports (filter (λ q, q ≠ promise) (pendingExports (this w))) w).

(** The request of delivery [promise] completes with [outcome]: the three
    reactions run, and the promise kept in [pendingExports] and [promises]
    takes the state the chain ends in. *)
Definition settle (promise : Handle) (d : Delivery) (outcome : PromiseState Response)
    (w : World) : World :=
  let p1 := then_check_ok outcome in
  let '(p2, w1) := catch_log (span_name d) p1 w in
  let '(p3, w2) := finally_remove promise p2 w1 in
  set_settled (<[promise := p3]> (settled w2)) w2.

(** ** Waiting for promises *)

(** [Promise.allSettled(promises)]: the states, once every promise is settled. *)
Definition Promise_allSettled (w : World) (promises : list Handle)
  : option (list (PromiseState unit)) :=
  mapM (λ h, settled w !! h) promises.

(** [Promise.all(promises)]: rejected once a promise is rejected, fulfilled once
    all are fulfilled, pending ([None]) otherwise. *)
Fixpoint Promise_all (w : World) (promises : list Handle) : option (PromiseState unit) :=
  match promises with
  | [] => Some (Fulfilled tt)
  | h :: rest =>
      match settled w !! h, Promise_all w rest with
      | Some (Rejected e), _ => Some (Rejected e)
      | _, Some (Rejected e) => Some (Rejected e)
      | Some (Fulfilled _), Some (Fulfilled _) => Some (Fulfilled tt)
      | _, _ => None
      end
  end.

(** The reaction on [Promise.allSettled(promises)]. *)
Definition aggregate (results : list (PromiseState unit)) : ExportResult :=
  let failed := List.filter is_rejected results in
  if (0 <? length failed)%nat then
    {| code := 1;
       error := Some (mkError PlainError
                        ("Failed to export " ++ pretty (length failed) ++ " span(s)")) |}
  else {| code := 0; error := None |}.

(** The task runs if what it waits for is settled. *)
Definition run_task (t : Task) (w : World) : option World :=
  match t with
  | Aggregation call promises =>
      results ← Promise_allSettled w promises;
      Some (invoke_callback call (aggregate results) w)
  | InForceFlush call awaited =>
      r ← Promise_all w awaited;
      Some (settle_async call r w)
  | InShutdown call awaited =>
      r ← Promise_all w awaited;
      match r with
      | Fulfilled _ => Some (settle_async call (Fulfilled tt) (set_pendingExports [] w))
      | Rejected e => Some (settle_async call (Rejected e) w)
      end
  end.

(** ** Events *)

Inductive Event :=
(** the host calls [export(spans, resultCallback)] *)
| CallExport (spans : list ReadableSpan)
(** the request of a delivery completes: a response arrives, or [fetch] rejects *)
| RequestCompletes (promise : Handle) (outcome : PromiseState Response)
(** the host calls [forceFlush()] *)
| CallForceFlush
(** the host calls [shutdown()] *)
| CallShutdown
(** the [i]-th suspended task is resumed *)
| Resume (i : nat).

Section Steps.
Context `{JsonParser}.

(** The world after the event, or [None] when the event cannot happen in [w]:
    a request completes once, for a delivery that was issued; a task resumes
    when what it waits for is settled. *)
Definition step (e : Event) (w : World) : option World :=
  match e with
  | CallExport spans =>
      let '(w1, c) := export spans (length (export_calls w)) w in
      Some (export_returns c w1)
  | RequestCompletes promise outcome =>
      match deliveries w !! promise, settled w !! promise with
      | Some d, None => Some (settle promise d outcome w)
      | _, _ => None
      end
  | CallForceFlush =>
      Some (count_async_call
              (set_tasks (tasks w ++ [InForceFlush (async_calls w) (pendingExports (this w))]) w))
  | CallShutdown =>
      Some (count_async_call
              (set_tasks (tasks w ++ [InShutdown (async_calls w) (pendingExports (this w))]) w))
  | Resume i =>
      t ← tasks w !! i;
      run_task t (set_tasks (delete i (tasks w)) w)
  end.

Fixpoint run (events : list Event) (w : World) : option World :=
  match events with
  | [] => Some w
  | e :: rest => w' ← step e w; run rest w'
  end.

End Steps.

(** The deliveries issued and not yet settled, in the order of issue. *)
Definition in_flight (w : World) : list Handle :=
  filter (λ h, settled w !! h = None) (seq 0 (length (deliveries w))).

(** A [Resume] of a [shutdown] that finds promises in [pendingExports]. *)
Definition shutdown_over_pending (e : Event) (w : World) : bool :=
  match e with
  | Resume i =>
      match tasks w !! i with
      | Some (InShutdown _ _) => negb (bool_decide (pendingExports (this w) = []))
      | _ => false
      end
  | _ => false
  end.

(** ** Notions used in the statements *)

(** The entry [extractInputs] makes for the input name [k], given what the
    attributes hold under the prefixed key and what [inputs] held before. *)
Definition input_entry (k : string) (attribute previous : option Value) : option Value :=
  if decide (k = "__proto__") then previous
  else match attribute with
       | Some v => if bool_decide (v ≠ VNull) && bool_decide (v ≠ VUndefined)
                   then Some v else previous
       | None => previous
       end.

Definition with_attributes (attrs : gmap string Value) (span : ReadableSpan) : ReadableSpan :=
  {| name := name span; traceId := traceId span; attributes := attrs |}.

(** The span without the attribute [key]. *)
Definition without_attribute (key : string) (span : ReadableSpan) : ReadableSpan :=
  with_attributes (delete key (attributes span)) span.

Definition parses `{JsonParser} (text : string) : bool :=
  match JSON_parse text with Return _ => true | Throw _ => false end.

(** A span the filter selects and that passes the four checks of the loop
    body: trace id of 32 characters, a function id, prompt messages, and
    prompt messages that parse. *)
Definition matched_and_valid `{JsonParser} (span : ReadableSpan) : bool :=
  includes relevant_names (name span)
  && (String.length (traceId span) =? 32)%nat
  && truthy (get_property (attributes span) "ai.telemetry.functionId")
  && truthy (get_property (attributes span) "ai.prompt.messages")
  && parses (ToString (get_property (attributes span) "ai.prompt.messages")).

(** Malformed input: a span the filter selects that fails one of the checks. *)
Definition malformed `{JsonParser} (span : ReadableSpan) : bool :=
  includes relevant_names (name span) && negb (matched_and_valid span).

(** Two worlds that differ at most in what was written to the console. *)
Definition same_but_console (w1 w2 : World) : Prop :=
  this w1 = this w2 ∧ deliveries w1 = deliveries w2 ∧ settled w1 = settled w2
  ∧ tasks w1 = tasks w2 ∧ export_calls w1 = export_calls w2
  ∧ callback_calls w1 = callback_calls w2 ∧ async_calls w1 = async_calls w2
  ∧ async_settled w1 = async_settled w2.

(** No [shutdown] of the run resumes over a non-empty [pendingExports]. *)
Fixpoint no_shutdown_over_pending `{JsonParser} (events : list Event) (w : World) : bool :=
  match events with
  | [] => true
  | e :: rest =>
      negb (shutdown_over_pending e w)
      && match step e w with
         | Some w' => no_shutdown_over_pending rest w'
         | None => true
         end
  end.

(** The number of deliveries that had been issued when a [shutdown] of the run
    last resumed over a non-empty [pendingExports]; [n] when none did. *)
Fixpoint forgotten_below `{JsonParser} (events : list Event) (w : World) (n : nat) : nat :=
  match events with
  | [] => n
  | e :: rest =>
      match step e w with
      | Some w' =>
          forgotten_below rest w'
            (if shutdown_over_pending e w then length (deliveries w) else n)
      | None => n
      end
  end.

(** Task [i] of [w] is a [forceFlush] or [shutdown], numbered [k], suspended
    on the promises [awaited]. *)
Definition suspended_on (w : World) (i k : nat) (awaited : list Handle) : Prop :=
  tasks w !! i = Some (InForceFlush k awaited) ∨ tasks w !! i = Some (InShutdown k awaited).

(** Every settled delivery promise was made by a call of [fetch], and is
    fulfilled. *)
Definition settled_fulfilled (w : World) : Prop :=
  ∀ h r, settled w !! h = Some r → (h < length (deliveries w))%nat ∧ r = Fulfilled tt.

(** Every settled promise of a [forceFlush] or a [shutdown] is fulfilled. *)
Definition async_fulfilled (w : World) : Prop :=
  ∀ k r, async_settled w !! k = Some r → r = Fulfilled tt.

(** Every result a callback received reports success. *)
Definition callbacks_success (w : World) : Prop :=
  ∀ c r, (c, r) ∈ callback_calls w → r = {| code := 0; error := None |}.

Definition consistent (w : World) : Prop :=
  settled_fulfilled w ∧ async_fulfilled w ∧ callbacks_success w.

(** ** Worked inputs *)

(** The reference host: the reference parser, and numbers printed in plain
    decimal; the worked inputs hold no number beyond 2^53. *)
#[local] Instance reference_parser : JsonParser :=
  {| JSON_parse := RefParser.parse;
     Number_toString := pretty;
     Number_toString_safe := λ n _, eq_refl |}.

Definition example_config : FreeplayConfig :=
  {| config_baseUrl := None; config_projectId := "proj"; config_apiKey := "key";
     config_environment := "prod" |}.

Definition example_traceId : string := "0123456789abcdef0123456789abcdef".

(** A span with every required attribute; its prompt messages are the JSON
    text of an array with one user message. *)
Definition valid_span : ReadableSpan :=
  {| name := "ai.generateText.doGenerate";
     traceId := example_traceId;
     attributes :=
       <["ai.telemetry.functionId" := VString "template-1"]>
         (<["ai.prompt.messages" :=
              VString ("[{" ++ String RefParser.quote "role" ++ String RefParser.quote ":"
                       ++ String RefParser.quote "user" ++ String RefParser.quote ","
                       ++ String RefParser.quote "content" ++ String RefParser.quote ":"
                       ++ String RefParser.quote "hi" ++ String RefParser.quote "}]")]>
            ∅) |}.

(** The valid span without its prompt messages. *)
Definition span_missing_prompt : ReadableSpan :=
  without_attribute "ai.prompt.messages" valid_span.

(** A span the filter passes over. *)
Definition other_span : ReadableSpan :=
  {| name := "http.request"; traceId := example_traceId; attributes := ∅ |}.

(** The valid span with an empty function id. *)
Definition span_empty_functionId : ReadableSpan :=
  with_attributes (<["ai.telemetry.functionId" := VString ""]> (attributes valid_span))
                  valid_span.


(** A second valid span, of the other recognized name, with a response text. *)
Definition valid_stream_span : ReadableSpan :=
  {| name := "ai.streamText.doStream";
     traceId := "fedcba9876543210fedcba9876543210";
     attributes :=
       <["ai.telemetry.functionId" := VString "template-2"]>
         (<["ai.prompt.messages" := VString "[]"]>
            (<["ai.response.text" := VString "hello"]> ∅)) |}.

(** A span whose prompt messages are the JSON text of an object, with a
    response text. *)
Definition span_object_messages : ReadableSpan :=
  {| name := "ai.generateText.doGenerate";
     traceId := example_traceId;
     attributes :=
       <["ai.telemetry.functionId" := VString "template-1"]>
         (<["ai.prompt.messages" := VString "{}"]>
            (<["ai.response.text" := VString "hello"]> ∅)) |}.

(** A run in which a [shutdown] resumes after the deliveries it waited for
    have settled, one on status 500 and one on a transport failure, and a
    later [export] issues a third delivery. *)
Definition quiet_shutdown_run : list Event :=
  [CallExport [valid_span; valid_stream_span];
   CallShutdown;
   RequestCompletes 0 (Fulfilled {| status := 500 |});
   RequestCompletes 1 (Rejected (mkError TypeError "fetch failed"));
   Resume 1;
   CallExport [valid_span]].

(** ** Further notions *)

Definition default_baseUrl : string := "https://app.freeplay.ai/api/v2".

Definition is_array (j : JSON) : bool :=
  match j with JArr _ => true | _ => false end.

(** A matched and valid span with a response text whose prompt messages parse
    to something other than an array. *)
Definition raises `{JsonParser} (span : ReadableSpan) : bool :=
  matched_and_valid span
  && truthy (get_property (attributes span) "ai.response.text")
  && match JSON_parse (ToString (get_property (attributes span) "ai.prompt.messages")) with
     | Return parsed => negb (is_array parsed)
     | Throw _ => false
     end.

(** The delivery the loop makes for a span, if it makes one. *)
Definition built `{JsonParser} (self : FreeplayExporter) (span : ReadableSpan)
  : option Delivery :=
  match process_span self span with
  | Built req => Some {| request := req; span_name := name span |}
  | _ => None
  end.

Definition aggregation_call (t : Task) : option nat :=
  match t with Aggregation call _ => Some call | _ => None end.

(** The export calls whose reaction on [Promise.allSettled] has not run. *)
Definition pending_reactions (w : World) : list nat :=
  omap aggregation_call (tasks w).

(** The export calls whose callback has been invoked, one entry per
    invocation. *)
Definition called_back (w : World) : list nat := (callback_calls w).*1.

(** The list [l] names each call of [calls] that returned, once, and nothing
    else. *)
Definition accounted (l : list nat) (calls : list (Completion unit)) : Prop :=
  NoDup l ∧ ∀ c, c ∈ l ↔ calls !! c = Some (Return tt).

(** The calls of [export] that returned are those called back or with a
    pending reaction, each counted once. *)
Definition callbacks_accounted (w : World) : Prop :=
  accounted (called_back w ++ pending_reactions w)%list (export_calls w).

(** The delivery [d] is the one the loop makes for [span]: its request is the
    one built for the span. *)
Definition sent_for `{JsonParser} (self : FreeplayExporter) (span : ReadableSpan)
    (d : Delivery) : Prop :=
  ∃ req, process_span self span = Built req
         ∧ d = {| request := req; span_name := name span |}.

(** What [messages.push] throws on a value that is not an array. *)
Definition push_error (parsed : JSON) : JsError :=
  match parsed with
  | JNull => mkError TypeError "Cannot read properties of null (reading 'push')"
  | _ => mkError TypeError "messages.push is not a function"
  end.

(** The console lines the completion of a request writes. *)
Definition failure_lines (d : Delivery) (outcome : PromiseState Response)
  : list ConsoleLine :=
  match outcome with
  | Fulfilled response =>
      if ok response then []
      else [console_error ("Failed to export span " ++ span_name d
                           ++ " to Freeplay: HTTP error! status: "
                           ++ pretty (status response))]
  | Rejected reason =>
      [console_error ("Failed to export span " ++ span_name d ++ " to Freeplay: "
                      ++ message reason)]
  end.

(** The warning the loop writes for a span, if it writes one. *)
Definition warning_of `{JsonParser} (self : FreeplayExporter) (span : ReadableSpan)
  : option ConsoleLine :=
  match process_span self span with
  | Dropped warning => Some (console_warn warning)
  | _ => None
  end.

(** A 2xx response. *)
Definition succeeded (outcome : PromiseState Response) : bool :=
  match outcome with Fulfilled response => ok response | Rejected _ => false end.

(** A span whose prompt messages are the JSON text [null], with a response
    text. *)
Definition span_null_messages : ReadableSpan :=
  {| name := "ai.generateText.doGenerate";
     traceId := example_traceId;
     attributes :=
       <["ai.telemetry.functionId" := VString "template-1"]>
         (<["ai.prompt.messages" := VString "null"]>
            (<["ai.response.text" := VString "hello"]> ∅)) |}.

(** A run in which a [shutdown] resumes over a delivery issued while it
    waited; that delivery then settles and a later [export] issues another. *)
Definition racing_shutdown_run : list Event :=
  [CallShutdown;
   CallExport [valid_span];
   Resume 0;
   RequestCompletes 0 (Fulfilled {| status := 200 |});
   CallExport [valid_stream_span]].

(** * Properties *)

(** ** Session ids *)

Lemma formatTraceIdToUUID_shape (t : string) :
  String.length t = 32%nat →
  ∃ u, formatTraceIdToUUID t = Return u
       ∧ String.length u = 36%nat
       ∧ charAt 8 u = Some "-"%char ∧ charAt 13 u = Some "-"%char
       ∧ charAt 18 u = Some "-"%char ∧ charAt 23 u = Some "-"%char
       ∧ without_hyphen_positions u = t.
Proof.
  intros Hlen.
  do 32 (destruct t as [|? t]; [simpl in Hlen; discriminate Hlen|]).
  destruct t; [|simpl in Hlen; discriminate Hlen].
  eexists. split; [reflexivity|]. repeat split; reflexivity.
Qed.

(** C4. For every 32-character lowercase-hex string [t], [formatTraceIdToUUID]
    returns a string of exactly 36 characters with hyphens at positions 8, 13,
    18 and 23 whose remaining 32 characters are those of [t] in their order
    (so [t] is recovered from the result by dropping those four positions);
    as a function of [t] alone the result is deterministic.  The trace id
    0123456789abcdef0123456789abcdef maps to
    01234567-89ab-cdef-0123-456789abcdef. *)
Theorem formatTraceIdToUUID_format :
  (∀ t : string, lower_hex32 t →
     ∃ u, formatTraceIdToUUID t = Return u
          ∧ String.length u = 36%nat
          ∧ charAt 8 u = Some "-"%char ∧ charAt 13 u = Some "-"%char
          ∧ charAt 18 u = Some "-"%char ∧ charAt 23 u = Some "-"%char
          ∧ without_hyphen_positions u = t)
  ∧ formatTraceIdToUUID "0123456789abcdef0123456789abcdef"
    = Return "01234567-89ab-cdef-0123-456789abcdef".
Proof.
  split; [|reflexivity].
  intros t [Hlen _]. by apply formatTraceIdToUUID_shape.
Qed.

Lemma formatTraceIdToUUID_format_witness :
  lower_hex32 "0123456789abcdef0123456789abcdef"
  ∧ ∃ u, formatTraceIdToUUID "0123456789abcdef0123456789abcdef" = Return u
         ∧ String.length u = 36%nat
         ∧ charAt 8 u = Some "-"%char ∧ charAt 13 u = Some "-"%char
         ∧ charAt 18 u = Some "-"%char ∧ charAt 23 u = Some "-"%char
         ∧ without_hyphen_positions u = "0123456789abcdef0123456789abcdef".
Proof.
  assert (Hhex : lower_hex32 "0123456789abcdef0123456789abcdef")
    by (split; reflexivity).
  split; [exact Hhex|].
  exact (proj1 formatTraceIdToUUID_format _ Hhex).
Defined.

(** C8. For every string [t] whose length is not 32, [formatTraceIdToUUID]
    returns no value: it throws the error
    [Invalid traceId length; expected 32 characters]. *)
Theorem formatTraceIdToUUID_invalid_length (t : string) :
  String.length t ≠ 32%nat →
  formatTraceIdToUUID t
  = Throw (mkError PlainError "Invalid traceId length; expected 32 characters").
Proof.
  intros Hlen. unfold formatTraceIdToUUID.
  destruct (Nat.eqb_spec (String.length t) 32) as [Heq|_]; [by destruct Hlen|reflexivity].
Qed.

Lemma formatTraceIdToUUID_invalid_length_witness :
  String.length "0123456789abcdef" ≠ 32%nat
  ∧ formatTraceIdToUUID "0123456789abcdef"
    = Throw (mkError PlainError "Invalid traceId length; expected 32 characters").
Proof.
  assert (Hlen : String.length "0123456789abcdef" ≠ 32%nat) by (simpl; lia).
  split; [exact Hlen|].
  exact (formatTraceIdToUUID_invalid_length _ Hlen).
Defined.

(** ** Input extraction *)

Lemma slice_from_app (p k : string) : slice_from (String.length p) (p ++ k) = k.
Proof. induction p as [|a p IH]; simpl; [by destruct k|done]. Qed.

Lemma startsWith_app (p k : string) : startsWith (p ++ k) p = true.
Proof. induction p as [|a p IH]; simpl; [done|]. by rewrite Ascii.eqb_refl. Qed.

Lemma startsWith_inv (s p : string) :
  startsWith s p = true → s = p ++ slice_from (String.length p) s.
Proof.
  revert s. induction p as [|a p IH]; intros s Hs; simpl in *.
  - by destruct s.
  - destruct s as [|b s]; [done|].
    destruct (Ascii.eqb_spec a b) as [->|]; [|done].
    change (String b s = String b (p ++ slice_from (String.length p) s)).
    f_equal. by apply IH.
Qed.

Lemma extractInputs_entry_lookup inputs key value k :
  extractInputs_entry inputs (key, value) !! k
  = if decide (key = inputs_prefix ++ k)
    then input_entry k (Some value) (inputs !! k)
    else inputs !! k.
Proof.
  unfold extractInputs_entry, input_entry.
  destruct (decide (key = inputs_prefix ++ k)) as [->|Hne].
  - rewrite startsWith_app, slice_from_app. unfold set_property.
    destruct (decide (k = "__proto__")); [by destruct (_ && _)|].
    destruct (_ && _); [by rewrite lookup_insert_eq|done].
  - destruct (startsWith key inputs_prefix) eqn:Hp; [|done].
    destruct (_ && _); [|done].
    unfold set_property. destruct (decide _); [done|].
    apply lookup_insert_ne. intros <-. apply Hne. by apply startsWith_inv.
Qed.

Lemma foldl_extractInputs_lookup (l : list (string * Value)) inputs k :
  NoDup l.*1 →
  foldl extractInputs_entry inputs l !! k
  = input_entry k ((list_to_map l : gmap string Value) !! (inputs_prefix ++ k)) (inputs !! k).
Proof.
  revert inputs. induction l as [|[key value] l IH]; intros inputs Hnd.
  - simpl. unfold input_entry. rewrite lookup_empty. by destruct (decide _).
  - apply NoDup_cons in Hnd as [Hkey Hnd].
    cbn [foldl]. rewrite list_to_map_cons, IH by done.
    rewrite extractInputs_entry_lookup.
    destruct (decide (key = inputs_prefix ++ k)) as [->|Hne].
    + rewrite lookup_insert_eq.
      rewrite (not_elem_of_list_to_map_1 l (inputs_prefix ++ k)) by done.
      unfold input_entry. destruct (decide _); [done|]. by destruct (_ && _).
    + by rewrite lookup_insert_ne.
Qed.

(** What [extractInputs] returns under the input name [k]: for every name but
    [__proto__], the value of the prefixed attribute when it is neither [null]
    nor [undefined], and nothing otherwise. *)
Lemma extractInputs_lookup (attributes : gmap string Value) (k : string) :
  extractInputs attributes !! k
  = input_entry k (attributes !! (inputs_prefix ++ k)) None.
Proof.
  unfold extractInputs.
  rewrite foldl_extractInputs_lookup by apply NoDup_fst_map_to_list.
  by rewrite list_to_map_to_list, lookup_empty.
Qed.

Lemma extractInputs_example :
  extractInputs (<["ai.telemetry.metadata.inputs.user" := VString "bob"]>
                   (<["ai.telemetry.metadata.inputs.age" := VNumber 5]>
                      (<["other.key" := VString "x"]> ∅)))
  = <["user" := VString "bob"]> (<["age" := VNumber 5]> ∅).
Proof. vm_compute. reflexivity. Qed.

(** C7. The claim holds for every input name but one: an attribute whose key
    is the prefix followed by [__proto__] has the prefix and a value that is
    neither [null] nor [undefined], and [extractInputs] returns no entry for
    it.  Here the attributes are the single entry
    [ai.telemetry.metadata.inputs.__proto__ : x] and the result is empty. *)
Theorem extractInputs_loses_proto :
  extractInputs (<["ai.telemetry.metadata.inputs.__proto__" := VString "x"]> ∅) = ∅
  ∧ extractInputs (<["ai.telemetry.metadata.inputs.__proto__" := VString "x"]> ∅)
      !! "__proto__" ≠ Some (VString "x").
Proof. split; [vm_compute; reflexivity|]. vm_compute. discriminate. Qed.

(** ** The loop of [export] *)

Lemma includes_relevant_names (n : string) :
  includes relevant_names n = true
  ↔ n = "ai.generateText.doGenerate" ∨ n = "ai.streamText.doStream".
Proof.
  unfold includes, relevant_names. simpl.
  rewrite orb_false_r, orb_true_iff, !String.eqb_eq. tauto.
Qed.

Section ExportFacts.
Context `{JsonParser}.

Lemma process_span_ignored self span :
  includes relevant_names (name span) = false → process_span self span = Ignored.
Proof. intros Hn. unfold process_span. by rewrite Hn. Qed.

Lemma process_span_malformed self span :
  malformed span = true → ∃ warning, process_span self span = Dropped warning.
Proof.
  unfold malformed, matched_and_valid, process_span, formatTraceIdToUUID, parses.
  destruct (includes _ _); [simpl|done].
  destruct (String.length (traceId span) =? 32)%nat; simpl; [|by eauto].
  destruct (truthy (get_property _ "ai.telemetry.functionId")); simpl; [|by eauto].
  destruct (truthy (get_property _ "ai.prompt.messages")); simpl; [|by eauto].
  destruct (JSON_parse _); simpl; [done|by eauto].
Qed.

Lemma process_span_valid self span :
  matched_and_valid span = true →
  (∃ req, process_span self span = Built req) ∨ (∃ e, process_span self span = Raised e).
Proof.
  unfold matched_and_valid, process_span, formatTraceIdToUUID, parses.
  destruct (includes _ _); [simpl|done].
  destruct (String.length (traceId span) =? 32)%nat; simpl; [|done].
  destruct (truthy (get_property _ "ai.telemetry.functionId")); simpl; [|done].
  destruct (truthy (get_property _ "ai.prompt.messages")); simpl; [|done].
  destruct (JSON_parse _); simpl; [|done]. intros _.
  destruct (if truthy _ then _ else _); eauto.
Qed.

Lemma process_span_unmatched_or_malformed self span :
  matched_and_valid span = false →
  process_span self span = Ignored ∨ ∃ warning, process_span self span = Dropped warning.
Proof.
  intros Hv. destruct (includes relevant_names (name span)) eqn:Hn.
  - right. apply process_span_malformed. unfold malformed. by rewrite Hn, Hv.
  - left. by apply process_span_ignored.
Qed.

Lemma export_loop_app pre post promises w :
  export_loop (pre ++ post) promises w
  = match export_loop pre promises w with
    | (w1, Return promises1) => export_loop post promises1 w1
    | (w1, Throw e) => (w1, Throw e)
    end.
Proof.
  revert promises w. induction pre as [|span pre IH]; intros promises w; simpl; [done|].
  destruct (process_span (this w) span); by rewrite ?IH.
Qed.

End ExportFacts.

Lemma same_but_console_refl w : same_but_console w w.
Proof. by repeat split. Qed.

Lemma same_but_console_write line w : same_but_console (write_console line w) w.
Proof. by repeat split. Qed.

Lemma same_but_console_trans w1 w2 w3 :
  same_but_console w1 w2 → same_but_console w2 w3 → same_but_console w1 w3.
Proof.
  unfold same_but_console. intros (?&?&?&?&?&?&?&?) (?&?&?&?&?&?&?&?).
  repeat split; congruence.
Qed.

Lemma same_but_console_sym w1 w2 : same_but_console w1 w2 → same_but_console w2 w1.
Proof. unfold same_but_console. intros (?&?&?&?&?&?&?&?). by repeat split. Qed.

Section LoopFacts.
Context `{JsonParser}.

(** The warning of a malformed span does not depend on the exporter. *)
Lemma process_span_malformed_warning span :
  malformed span = true → ∃ warning, ∀ self, process_span self span = Dropped warning.
Proof.
  unfold malformed, matched_and_valid, parses. intros Hm.
  destruct (includes relevant_names (name span)) eqn:Hn; [simpl in Hm|done].
  destruct (String.length (traceId span) =? 32)%nat eqn:Hlen; simpl in Hm.
  2:{ eexists. intros self. unfold process_span, formatTraceIdToUUID.
      rewrite Hn, Hlen. simpl. reflexivity. }
  destruct (truthy (get_property _ "ai.telemetry.functionId")) eqn:Hf; simpl in Hm.
  2:{ eexists. intros self. unfold process_span, formatTraceIdToUUID.
      rewrite Hn, Hlen, Hf. simpl. reflexivity. }
  destruct (truthy (get_property _ "ai.prompt.messages")) eqn:Hp; simpl in Hm.
  2:{ eexists. intros self. unfold process_span, formatTraceIdToUUID.
      rewrite Hn, Hlen, Hf, Hp. simpl. reflexivity. }
  destruct (JSON_parse _) as [|e] eqn:Hj; [done|].
  eexists. intros self. unfold process_span, formatTraceIdToUUID.
  rewrite Hn, Hlen, Hf, Hp, Hj. simpl. reflexivity.
Qed.

Lemma export_loop_ignored span rest promises w :
  process_span (this w) span = Ignored →
  export_loop (span :: rest) promises w = export_loop rest promises w.
Proof. intros Hp. simpl. by rewrite Hp. Qed.

Lemma export_loop_dropped span warning rest promises w :
  process_span (this w) span = Dropped warning →
  export_loop (span :: rest) promises w
  = export_loop rest promises (write_console (console_warn warning) w).
Proof. intros Hp. simpl. by rewrite Hp. Qed.

(** The loop does the same in two worlds that differ in the console. *)
Lemma export_loop_same_but_console spans promises w1 w2 :
  same_but_console w1 w2 →
  same_but_console (export_loop spans promises w1).1 (export_loop spans promises w2).1
  ∧ (export_loop spans promises w1).2 = (export_loop spans promises w2).2.
Proof.
  revert promises w1 w2.
  induction spans as [|span spans IH]; intros promises w1 w2 Hw; simpl; [done|].
  pose proof Hw as (Hthis & Hd & Hs & Ht & He & Hc & Ha & Has).
  rewrite Hthis. destruct (process_span (this w2) span); simpl.
  - by apply IH.
  - apply IH. unfold same_but_console. simpl. by repeat split.
  - rewrite Hd. apply IH. unfold same_but_console. simpl.
    rewrite Hthis, Hd. by repeat split.
  - done.
Qed.

(** What the loop changes: deliveries are appended, and their promises are
    pushed to [pendingExports] and to [promises]; lines go to the console. *)
Lemma export_loop_effect spans promises w w' c :
  export_loop spans promises w = (w', c) →
  ∃ ds : list Delivery,
    deliveries w' = (deliveries w ++ ds)%list
    ∧ pendingExports (this w')
      = (pendingExports (this w) ++ seq (length (deliveries w)) (length ds))%list
    ∧ (∀ promises', c = Return promises' →
         promises' = (promises ++ seq (length (deliveries w)) (length ds))%list)
    ∧ settled w' = settled w ∧ tasks w' = tasks w
    ∧ export_calls w' = export_calls w ∧ callback_calls w' = callback_calls w
    ∧ async_calls w' = async_calls w ∧ async_settled w' = async_settled w.
Proof.
  revert promises w.
  induction spans as [|span spans IH]; intros promises w Hrun; simpl in Hrun.
  - injection Hrun as <- <-. exists []. simpl. rewrite !app_nil_r.
    repeat split; try done. by intros ? [= <-].
  - destruct (process_span (this w) span) as [|warning|req|e].
    + by apply IH.
    + apply IH in Hrun as (ds & ? & ? & ? & ? & ? & ? & ? & ? & ?).
      exists ds. by repeat split.
    + apply IH in Hrun as (ds & Hd & Hp & Hc & ? & ? & ? & ? & ? & ?).
      simpl in *. rewrite length_app in Hp, Hc. simpl in Hp, Hc.
      rewrite Nat.add_1_r in Hp, Hc.
      exists ({| request := req; span_name := name span |} :: ds).
      rewrite Hd, Hp. rewrite <- !app_assoc. simpl.
      repeat split; try done.
      intros promises' Hret. rewrite (Hc _ Hret), <- app_assoc. done.
    + injection Hrun as <- <-. exists []. simpl. rewrite !app_nil_r.
      by repeat split.
Qed.

Lemma export_loop_nothing_valid spans promises w :
  Forall (λ s, matched_and_valid s = false) spans →
  ∃ w', export_loop spans promises w = (w', Return promises) ∧ same_but_console w' w.
Proof.
  revert w. induction spans as [|span spans IH]; intros w Hall; simpl.
  - eexists. split; [done|]. apply same_but_console_refl.
  - apply Forall_cons in Hall as [Hspan Hall].
    destruct (process_span_unmatched_or_malformed (this w) span Hspan)
      as [-> | [warning ->]].
    + by apply IH.
    + destruct (IH (write_console (console_warn warning) w) Hall) as (w' & -> & Hw).
      eexists. split; [done|].
      eapply same_but_console_trans; [exact Hw|apply same_but_console_write].
Qed.

End LoopFacts.

Section BatchFacts.
Context `{JsonParser}.

Lemma process_span_ignored_iff self span :
  process_span self span = Ignored ↔ includes relevant_names (name span) = false.
Proof.
  split; [|apply process_span_ignored].
  unfold process_span. destruct (includes _ _); [|done].
  destruct (formatTraceIdToUUID _); [|done].
  destruct (negb _); [done|]. destruct (truthy _); [|done].
  destruct (JSON_parse _); [|done].
  by destruct (if truthy _ then _ else _).
Qed.

Lemma malformed_cases span :
  includes relevant_names (name span) = true →
  String.length (traceId span) ≠ 32%nat
  ∨ attributes span !! "ai.telemetry.functionId" = None
  ∨ attributes span !! "ai.prompt.messages" = None
  ∨ (∃ e, JSON_parse (ToString (get_property (attributes span) "ai.prompt.messages"))
          = Throw e) →
  malformed span = true.
Proof.
  intros Hn Hcases. unfold malformed, matched_and_valid, parses, get_property in *.
  rewrite Hn. simpl.
  destruct Hcases as [Hlen | [Hf | [Hp | [e He]]]].
  - apply Nat.eqb_neq in Hlen. by rewrite Hlen.
  - rewrite Hf. simpl. by rewrite andb_false_r.
  - rewrite Hp. simpl. by rewrite andb_false_r.
  - rewrite He. by rewrite andb_false_r.
Qed.

Lemma export_loop_without_malformed pre span post promises w :
  malformed span = true →
  same_but_console (export_loop (pre ++ span :: post) promises w).1
                   (export_loop (pre ++ post) promises w).1
  ∧ (export_loop (pre ++ span :: post) promises w).2
    = (export_loop (pre ++ post) promises w).2.
Proof.
  intros Hm. rewrite !export_loop_app.
  destruct (export_loop pre promises w) as [w1 [promises1|e]];
    [|split; [apply same_but_console_refl|done]].
  destruct (process_span_malformed_warning span Hm) as [warning Hw].
  rewrite (export_loop_dropped _ warning) by apply Hw.
  apply export_loop_same_but_console, same_but_console_write.
Qed.

Lemma export_without_malformed pre span post call w :
  malformed span = true →
  same_but_console (export (pre ++ span :: post) call w).1 (export (pre ++ post) call w).1
  ∧ (export (pre ++ span :: post) call w).2 = (export (pre ++ post) call w).2.
Proof.
  intros Hm. unfold export.
  destruct (export_loop_without_malformed pre span post [] w Hm) as [Hw Hc].
  destruct (export_loop (pre ++ span :: post) [] w) as [w1 c1].
  destruct (export_loop (pre ++ post) [] w) as [w2 c2].
  simpl in Hw, Hc. subst c2. destruct c1 as [promises|e]; [|done].
  destruct Hw as (?&?&?&Ht&?&Hcb&?&?).
  destruct (length promises =? 0)%nat; simpl; split; try done;
    unfold same_but_console; simpl; rewrite ?Ht, ?Hcb; by repeat split.
Qed.

Lemma export_nothing_valid spans w :
  Forall (λ s, matched_and_valid s = false) spans →
  ∃ w', step (CallExport spans) w = Some w'
        ∧ export_calls w' = (export_calls w ++ [Return tt])%list
        ∧ callback_calls w'
          = (callback_calls w
             ++ [(length (export_calls w), {| code := 0; error := None |})])%list
        ∧ deliveries w' = deliveries w ∧ this w' = this w
        ∧ tasks w' = tasks w ∧ settled w' = settled w.
Proof.
  intros Hall. unfold step, export.
  destruct (export_loop_nothing_valid spans [] w Hall) as (w1 & -> & Hw).
  simpl. eexists. split; [done|]. simpl.
  destruct Hw as (Hthis & Hd & Hs & Ht & He & Hc & _).
  rewrite Hthis, Hd, Hs, Ht, He, Hc. by repeat split.
Qed.

End BatchFacts.

(** ** The span filter *)

(** C6. The filter selects a span exactly when its name equals one of the two
    names [ai.generateText.doGenerate] and [ai.streamText.doStream]: the loop
    passes over any other span with nothing changed and nothing thrown, and
    passes over no span of these names; a selected span that passes the checks
    has its request sent.  For a batch without a matched and valid span,
    [export] invokes the callback with code 0 before it returns and calls
    [fetch] not once. *)
Theorem span_filter_exact :
  (∀ n : string,
     includes relevant_names n = true
     ↔ n = "ai.generateText.doGenerate" ∨ n = "ai.streamText.doStream")
  ∧ (∀ (P : JsonParser) (span : ReadableSpan),
       name span ≠ "ai.generateText.doGenerate" →
       name span ≠ "ai.streamText.doStream" →
       (∀ self, process_span self span = Ignored)
       ∧ ∀ rest promises w,
           export_loop (span :: rest) promises w = export_loop rest promises w)
  ∧ (∀ (P : JsonParser) (spans : list ReadableSpan) (w : World),
       Forall (λ s, matched_and_valid s = false) spans →
       ∃ w', step (CallExport spans) w = Some w'
             ∧ export_calls w' = (export_calls w ++ [Return tt])%list
             ∧ callback_calls w'
               = (callback_calls w
                  ++ [(length (export_calls w), {| code := 0; error := None |})])%list
             ∧ deliveries w' = deliveries w ∧ this w' = this w
             ∧ tasks w' = tasks w ∧ settled w' = settled w)
  ∧ (∀ (P : JsonParser) (self : FreeplayExporter) (span : ReadableSpan),
       process_span self span = Ignored
       ↔ ¬ (name span = "ai.generateText.doGenerate"
            ∨ name span = "ai.streamText.doStream"))
  ∧ (∀ (P : JsonParser) (span : ReadableSpan) (rest : list ReadableSpan)
       (promises : list Handle) (w : World),
       name span = "ai.generateText.doGenerate" ∨ name span = "ai.streamText.doStream" →
       matched_and_valid span = true →
       raises span = false →
       ∃ req,
         process_span (this w) span = Built req
         ∧ export_loop (span :: rest) promises w
           = export_loop rest (promises ++ [length (deliveries w)])
               (set_pendingExports
                  (pendingExports (this w) ++ [length (deliveries w)])
                  (fetch {| request := req; span_name := name span |} w))).
Proof.
  split; [apply includes_relevant_names|]. split; [|split; [|split]].
  - intros P span Hg Hs.
    assert (Hn : includes relevant_names (name span) = false).
    { destruct (includes relevant_names (name span)) eqn:Hn; [|done].
      apply includes_relevant_names in Hn as [?|?]; done. }
    split; [intros self; by apply process_span_ignored|].
    intros rest promises w. by apply export_loop_ignored, process_span_ignored.
  - intros P spans w. apply export_nothing_valid.
  - intros P self span. rewrite process_span_ignored_iff, <- includes_relevant_names.
    by destruct (includes relevant_names (name span)).
  - intros P span rest promises w _ Hvalid Hraises.
    destruct (process_span_valid (this w) span Hvalid) as [[req Hreq]|[e He]].
    + exists req. split; [exact Hreq|]. simpl. by rewrite Hreq.
    + exfalso. revert He Hvalid Hraises.
      unfold raises, matched_and_valid, parses, process_span, formatTraceIdToUUID.
      destruct (includes _ _); [simpl|done].
      destruct (String.length (traceId span) =? 32)%nat; [simpl|done].
      destruct (truthy (get_property _ "ai.telemetry.functionId")); [simpl|done].
      destruct (truthy (get_property _ "ai.prompt.messages")); [simpl|done].
      destruct (JSON_parse _) as [parsed|]; [simpl|done].
      destruct (truthy (get_property _ "ai.response.text")); [simpl|done].
      by destruct parsed.
Qed.

Lemma span_filter_exact_witness :
  name other_span ≠ "ai.generateText.doGenerate"
  ∧ name other_span ≠ "ai.streamText.doStream"
  ∧ Forall (λ s, matched_and_valid s = false) [other_span; span_missing_prompt]
  ∧ process_span (constructor example_config) other_span = Ignored
  ∧ (∃ w', step (CallExport [other_span; span_missing_prompt]) (new_world example_config)
           = Some w'
           ∧ callback_calls w' = [(0%nat, {| code := 0; error := None |})]
           ∧ deliveries w' = [])
  ∧ (name valid_span = "ai.generateText.doGenerate"
     ∨ name valid_span = "ai.streamText.doStream")
  ∧ matched_and_valid valid_span = true
  ∧ raises valid_span = false
  ∧ process_span (constructor example_config) valid_span ≠ Ignored
  ∧ ∃ req,
      process_span (this (new_world example_config)) valid_span = Built req
      ∧ export_loop [valid_span] [] (new_world example_config)
        = export_loop [] [0%nat]
            (set_pendingExports [0%nat]
               (fetch {| request := req; span_name := name valid_span |}
                  (new_world example_config))).
Proof.
  assert (Hg : name other_span ≠ "ai.generateText.doGenerate") by discriminate.
  assert (Hs : name other_span ≠ "ai.streamText.doStream") by discriminate.
  assert (Hall : Forall (λ s, matched_and_valid s = false) [other_span; span_missing_prompt])
    by (repeat constructor).
  assert (Hname : name valid_span = "ai.generateText.doGenerate"
                  ∨ name valid_span = "ai.streamText.doStream") by (left; reflexivity).
  assert (Hvalid : matched_and_valid valid_span = true) by (vm_compute; reflexivity).
  assert (Hraises : raises valid_span = false) by (vm_compute; reflexivity).
  split; [exact Hg|]. split; [exact Hs|]. split; [exact Hall|]. split.
  { exact (proj1 (proj1 (proj2 span_filter_exact) reference_parser other_span Hg Hs)
             (constructor example_config)). }
  split.
  { destruct (proj1 (proj2 (proj2 span_filter_exact)) reference_parser _
                (new_world example_config) Hall)
      as (w' & Hstep & _ & Hcb & Hd & _).
    exists w'. split; [exact Hstep|]. split; [exact Hcb|exact Hd]. }
  split; [exact Hname|]. split; [exact Hvalid|]. split; [exact Hraises|]. split.
  { intros Hign.
    apply (proj1 (proj2 (proj2 (proj2 span_filter_exact))) reference_parser
             (constructor example_config) valid_span) in Hign.
    exact (Hign Hname). }
  exact (proj2 (proj2 (proj2 (proj2 span_filter_exact))) reference_parser valid_span []
           [] (new_world example_config) Hname Hvalid Hraises).
Defined.

(** ** Malformed spans *)

(** C5. A span the filter selects whose trace id is invalid, or that lacks the
    function id or the prompt messages, or whose prompt messages are rejected
    by [JSON.parse], is logged and dropped, and the loop goes on with the rest
    of the batch; a batch with such a span makes the deliveries, returns and
    reports to the callback as the batch without it does, so the span makes no
    batch fail.  A batch of a span without prompt messages and a valid span
    makes exactly one call of [fetch], for the valid span, and the callback
    receives code 0 once that request succeeds. *)
Theorem malformed_span_dropped :
  (∀ (P : JsonParser) (span : ReadableSpan),
     includes relevant_names (name span) = true →
     String.length (traceId span) ≠ 32%nat
     ∨ attributes span !! "ai.telemetry.functionId" = None
     ∨ attributes span !! "ai.prompt.messages" = None
     ∨ (∃ e, JSON_parse (ToString (get_property (attributes span) "ai.prompt.messages"))
             = Throw e) →
     (∃ warning, ∀ rest promises w,
        export_loop (span :: rest) promises w
        = export_loop rest promises (write_console (console_warn warning) w))
     ∧ (∀ pre post call w,
          same_but_console (export (pre ++ span :: post) call w).1
                           (export (pre ++ post) call w).1
          ∧ (export (pre ++ span :: post) call w).2 = (export (pre ++ post) call w).2))
  ∧ (∃ w req,
       step (CallExport [span_missing_prompt; valid_span]) (new_world example_config) = Some w
       ∧ process_span (constructor example_config) valid_span = Built req
       ∧ deliveries w = [{| request := req; span_name := name valid_span |}]
       ∧ console w
         = [console_warn "Missing ai.prompt.messages for span ai.generateText.doGenerate"]
       ∧ ∃ w', run [RequestCompletes 0 (Fulfilled {| status := 200 |}); Resume 0] w = Some w'
               ∧ callback_calls w' = [(0%nat, {| code := 0; error := None |})]).
Proof.
  split.
  - intros P span Hn Hcases.
    pose proof (malformed_cases span Hn Hcases) as Hm. split.
    + destruct (process_span_malformed_warning span Hm) as [warning Hw].
      exists warning. intros rest promises w. apply export_loop_dropped, Hw.
    + intros pre post call w. by apply export_without_malformed.
  - eexists. eexists. split; [vm_compute; reflexivity|].
    split; [vm_compute; reflexivity|].
    split; [vm_compute; reflexivity|].
    split; [vm_compute; reflexivity|].
    eexists. split; vm_compute; reflexivity.
Qed.

Lemma malformed_span_dropped_witness :
  includes relevant_names (name span_missing_prompt) = true
  ∧ attributes span_missing_prompt !! "ai.prompt.messages" = None
  ∧ ∃ warning, ∀ rest promises w,
      export_loop (span_missing_prompt :: rest) promises w
      = export_loop rest promises (write_console (console_warn warning) w).
Proof.
  assert (Hn : includes relevant_names (name span_missing_prompt) = true) by reflexivity.
  assert (Hp : attributes span_missing_prompt !! "ai.prompt.messages" = None)
    by (vm_compute; reflexivity).
  split; [exact Hn|]. split; [exact Hp|].
  exact (proj1 (proj1 malformed_span_dropped reference_parser span_missing_prompt Hn
                  (or_intror (or_intror (or_introl Hp))))).
Defined.

(** ** Falsy required attributes *)

Section FalsyFacts.
Context `{JsonParser}.





End FalsyFacts.



(** ** The in-flight set *)

Lemma filter_all {A} (P : A → Prop) `{!∀ x, Decision (P x)} (l : list A) :
  Forall P l → filter P l = l.
Proof.
  induction 1 as [|x l Hx Hl IH]; [done|]. by rewrite filter_cons_True, IH.
Qed.

Lemma sublist_filter_mono {A} (P : A → Prop) `{!∀ x, Decision (P x)} (l1 l2 : list A) :
  sublist l1 l2 → sublist (filter P l1) (filter P l2).
Proof.
  induction 1 as [|x l1 l2 Hl IH|x l1 l2 Hl IH]; [done| |].
  - rewrite !filter_cons. destruct (decide (P x)); [by constructor|done].
  - rewrite filter_cons. destruct (decide (P x)); [by constructor|done].
Qed.

Lemma in_flight_settle w w' h r :
  deliveries w' = deliveries w →
  settled w' = <[h := r]> (settled w) →
  in_flight w' = filter (λ q, q ≠ h) (in_flight w).
Proof.
  intros Hd Hs. unfold in_flight. rewrite Hd, Hs, list_filter_filter.
  apply list_filter_iff. intros x. rewrite lookup_insert_None. intuition congruence.
Qed.

Lemma in_flight_issue w w' ds :
  settled_fulfilled w →
  deliveries w' = (deliveries w ++ ds)%list →
  settled w' = settled w →
  in_flight w' = (in_flight w ++ seq (length (deliveries w)) (length ds))%list.
Proof.
  intros Hok Hd Hs. unfold in_flight.
  rewrite Hd, Hs, length_app, seq_app, filter_app. f_equal.
  apply filter_all, Forall_forall. intros x Hx.
  apply elem_of_seq in Hx.
  destruct (settled w !! x) as [r|] eqn:Hr; [|done].
  apply Hok in Hr as [Hlt _]. simpl in *. lia.
Qed.

Lemma in_flight_same w w' :
  deliveries w' = deliveries w → settled w' = settled w → in_flight w' = in_flight w.
Proof. intros Hd Hs. unfold in_flight. by rewrite Hd, Hs. Qed.

Lemma NoDup_in_flight w : NoDup (in_flight w).
Proof. unfold in_flight. apply NoDup_filter, NoDup_seq. Qed.

Lemma elem_of_in_flight w h :
  h ∈ in_flight w ↔ (h < length (deliveries w))%nat ∧ settled w !! h = None.
Proof.
  unfold in_flight. rewrite list_elem_of_filter, elem_of_seq. intuition lia.
Qed.

(** What the settlement of a delivery changes. *)
Lemma settle_effect promise d outcome w :
  settled (settle promise d outcome w) = <[promise := Fulfilled tt]> (settled w)
  ∧ pendingExports (this (settle promise d outcome w))
    = filter (λ q, q ≠ promise) (pendingExports (this w))
  ∧ deliveries (settle promise d outcome w) = deliveries w
  ∧ tasks (settle promise d outcome w) = tasks w
  ∧ export_calls (settle promise d outcome w) = export_calls w
  ∧ callback_calls (settle promise d outcome w) = callback_calls w
  ∧ async_calls (settle promise d outcome w) = async_calls w
  ∧ async_settled (settle promise d outcome w) = async_settled w.
Proof.
  unfold settle, then_check_ok, catch_log, finally_remove.
  destruct outcome as [response|reason]; [destruct (ok response)|]; simpl;
    by repeat split.
Qed.

Lemma Promise_all_fulfilled w promises r :
  settled_fulfilled w → Promise_all w promises = Some r → r = Fulfilled tt.
Proof.
  intros Hok. revert r. induction promises as [|h promises IH]; intros r; simpl.
  - by intros [= <-].
  - destruct (settled w !! h) as [[v|e]|] eqn:Hh.
    + destruct (Promise_all w promises) as [[v'|e']|]; [by intros [= <-]| |done].
      by specialize (IH _ eq_refl).
    + by apply Hok in Hh as [_ ?].
    + destruct (Promise_all w promises) as [[v'|e']|]; [done| |done].
      by specialize (IH _ eq_refl).
Qed.


Lemma Promise_all_pending w promises h :
  settled_fulfilled w → h ∈ promises → settled w !! h = None →
  Promise_all w promises = None.
Proof.
  intros Hok Hin Hh. induction Hin as [h promises|h h' promises Hin IH]; simpl.
  - rewrite Hh. destruct (Promise_all w promises) as [r|] eqn:Hr; [|done].
    by rewrite (Promise_all_fulfilled _ _ _ Hok Hr).
  - rewrite IH by done. destruct (settled w !! h') as [[v|e]|] eqn:Hh'; [done| |done].
    by apply Hok in Hh' as [_ ?].
Qed.

Lemma aggregate_fulfilled w promises results :
  settled_fulfilled w → Promise_allSettled w promises = Some results →
  aggregate results = {| code := 0; error := None |}.
Proof.
  intros Hok Hres. apply mapM_Some in Hres.
  assert (Hnone : List.filter is_rejected results = []).
  { induction Hres as [|h r promises results Hr Hres IH]; [done|].
    simpl. apply Hok in Hr as [_ ->]. simpl. exact IH. }
  unfold aggregate. by rewrite Hnone.
Qed.

Section StepFacts.
Context `{JsonParser}.

(** What a call of [export] changes. *)
Lemma step_export_effect spans w w' :
  step (CallExport spans) w = Some w' →
  ∃ ds : list Delivery,
    deliveries w' = (deliveries w ++ ds)%list
    ∧ pendingExports (this w')
      = (pendingExports (this w) ++ seq (length (deliveries w)) (length ds))%list
    ∧ settled w' = settled w
    ∧ async_calls w' = async_calls w ∧ async_settled w' = async_settled w
    ∧ (callback_calls w' = callback_calls w
       ∨ callback_calls w'
         = (callback_calls w
            ++ [(length (export_calls w), {| code := 0; error := None |})])%list).
Proof.
  unfold step, export. intros Hstep.
  destruct (export_loop spans [] w) as [w1 c] eqn:Hloop.
  apply export_loop_effect in Hloop as (ds & Hd & Hp & _ & Hs & _ & _ & Hcb & Ha & Has).
  exists ds.
  destruct c as [promises|e]; [destruct (length promises =? 0)%nat|];
    injection Hstep as <-; simpl; rewrite ?Hcb; repeat split; auto.
Qed.

(** One step keeps the world consistent, and changes [pendingExports] in
    one of three ways: promises of new deliveries are appended, or the
    promise of a delivery that settles is filtered out, or a [shutdown] that
    resumes empties it. *)
Lemma step_change e w w' :
  consistent w → step e w = Some w' →
  consistent w'
  ∧ ((∃ m, pendingExports (this w')
           = (pendingExports (this w) ++ seq (length (deliveries w)) m)%list
           ∧ in_flight w' = (in_flight w ++ seq (length (deliveries w)) m)%list)
     ∨ (∃ h, pendingExports (this w') = filter (λ q, q ≠ h) (pendingExports (this w))
             ∧ in_flight w' = filter (λ q, q ≠ h) (in_flight w))
     ∨ (pendingExports (this w') = [] ∧ in_flight w' = in_flight w
        ∧ (shutdown_over_pending e w = false → pendingExports (this w) = []))).
Proof.
  intros (Hok & Hasync & Hcb) Hstep. destruct e as [spans|h outcome| | |i].
  - apply step_export_effect in Hstep as (ds & Hd & Hp & Hs & _ & Has & Hcalls).
    split; [|left; exists (length ds); split; [done|by apply in_flight_issue]].
    split; [|split].
    + intros h r Hr. rewrite Hs in Hr. apply Hok in Hr as [Hlt ->].
      rewrite Hd, length_app. split; [lia|done].
    + intros k r. rewrite Has. apply Hasync.
    + intros c r Hin. destruct Hcalls as [Hc|Hc]; rewrite Hc in Hin; [by eapply Hcb|].
      apply elem_of_app in Hin as [Hin|Hin]; [by eapply Hcb|].
      apply list_elem_of_singleton in Hin. by injection Hin as _ ->.
  - simpl in Hstep.
    destruct (deliveries w !! h) as [d|] eqn:Hd; [|done].
    destruct (settled w !! h) eqn:Hh; [done|].
    injection Hstep as <-.
    destruct (settle_effect h d outcome w) as (Hs & Hp & Hds & _ & _ & Hc & _ & Has).
    split; [|right; left; exists h; split; [done|by eapply in_flight_settle]].
    split; [|split].
    + intros h' r. rewrite Hs, Hds, lookup_insert_Some.
      intros [[<- <-]|[_ Hr]]; [|by apply Hok].
      split; [by eapply lookup_lt_Some|done].
    + intros k r. rewrite Has. apply Hasync.
    + intros c r. rewrite Hc. apply Hcb.
  - injection Hstep as <-.
    split; [split; [exact Hok|split; [exact Hasync|exact Hcb]]|].
    left. exists 0%nat. simpl. by rewrite !app_nil_r.
  - injection Hstep as <-.
    split; [split; [exact Hok|split; [exact Hasync|exact Hcb]]|].
    left. exists 0%nat. simpl. by rewrite !app_nil_r.
  - simpl in Hstep. destruct (tasks w !! i) as [t|] eqn:Ht; [simpl in Hstep|done].
    pose proof (Hok : settled_fulfilled (set_tasks (delete i (tasks w)) w)) as Hok'.
    destruct t as [call promises|call awaited|call awaited]; simpl in Hstep.
    + destruct (Promise_allSettled _ promises) as [results|] eqn:Hres; [|done].
      injection Hstep as <-.
      apply (aggregate_fulfilled _ _ _ Hok') in Hres.
      split; [|left; exists 0%nat; simpl; by rewrite !app_nil_r].
      split; [exact Hok|]. split; [exact Hasync|].
      intros c r Hin. simpl in Hin.
      apply elem_of_app in Hin as [Hin|Hin]; [by eapply Hcb|].
      apply list_elem_of_singleton in Hin. injection Hin as _ ->. exact Hres.
    + destruct (Promise_all _ awaited) as [r|] eqn:Hr; [|done].
      injection Hstep as <-.
      apply (Promise_all_fulfilled _ _ _ Hok') in Hr as ->.
      split; [|left; exists 0%nat; simpl; by rewrite !app_nil_r].
      split; [exact Hok|]. split; [|exact Hcb].
      intros k r. simpl. rewrite lookup_insert_Some.
      intros [[_ <-]|[_ Hk]]; [done|by eapply Hasync].
    + destruct (Promise_all _ awaited) as [r|] eqn:Hr; [|done].
      apply (Promise_all_fulfilled _ _ _ Hok') in Hr as ->.
      injection Hstep as <-.
      split.
      * split; [exact Hok|]. split; [|exact Hcb].
        intros k r. simpl. rewrite lookup_insert_Some.
        intros [[_ <-]|[_ Hk]]; [done|by eapply Hasync].
      * right; right. split; [done|]. split; [done|].
        simpl. rewrite Ht. intros Hquiet.
        apply negb_false_iff, bool_decide_eq_true in Hquiet. exact Hquiet.
Qed.

Lemma consistent_new_world config : consistent (new_world config).
Proof.
  split; [|split].
  - intros h r Hr. simpl in Hr. by rewrite lookup_empty in Hr.
  - intros k r Hr. simpl in Hr. by rewrite lookup_empty in Hr.
  - intros c r Hin. simpl in Hin. by apply elem_of_nil in Hin.
Qed.

(** Every world a run reaches is consistent. *)
Lemma run_consistent events w w' :
  consistent w → run events w = Some w' → consistent w'.
Proof.
  revert w. induction events as [|e events IH]; intros w Hw Hrun; simpl in Hrun.
  - by injection Hrun as <-.
  - destruct (step e w) as [w1|] eqn:Hstep; [simpl in Hrun|done].
    eapply IH; [|exact Hrun]. by eapply step_change.
Qed.

(** [pendingExports] holds only deliveries in flight, each once, in the
    order of issue. *)
Lemma run_pending_sublist events w w' :
  consistent w → run events w = Some w' →
  sublist (pendingExports (this w)) (in_flight w) →
  sublist (pendingExports (this w')) (in_flight w').
Proof.
  revert w. induction events as [|e events IH]; intros w Hw Hrun Hsub; simpl in Hrun.
  - by injection Hrun as <-.
  - destruct (step e w) as [w1|] eqn:Hstep; [simpl in Hrun|done].
    destruct (step_change e w w1 Hw Hstep)
      as (Hw1 & [(m & Hp & Hf)|[(h & Hp & Hf)|(Hp & Hf & _)]]);
      eapply IH; try exact Hrun; try exact Hw1; rewrite Hp, ?Hf.
    + by apply sublist_app.
    + by apply sublist_filter_mono.
    + apply sublist_nil_l.
Qed.

(** When no [shutdown] resumes over a non-empty [pendingExports], the field
    is the list of the deliveries in flight. *)
Lemma run_pending_exact events w w' :
  consistent w → run events w = Some w' →
  no_shutdown_over_pending events w = true →
  pendingExports (this w) = in_flight w →
  pendingExports (this w') = in_flight w'.
Proof.
  revert w. induction events as [|e events IH]; intros w Hw Hrun Hquiet Heq;
    simpl in Hrun, Hquiet.
  - by injection Hrun as <-.
  - destruct (step e w) as [w1|] eqn:Hstep; [simpl in Hrun|done].
    apply andb_true_iff in Hquiet as [He Hquiet]. apply negb_true_iff in He.
    destruct (step_change e w w1 Hw Hstep)
      as (Hw1 & [(m & Hp & Hf)|[(h & Hp & Hf)|(Hp & Hf & Hempty)]]);
      eapply IH; try exact Hrun; try exact Hw1; try exact Hquiet.
    + by rewrite Hp, Hf, Heq.
    + by rewrite Hp, Hf, Heq.
    + rewrite Hp, Hf, <- Heq. symmetry. by apply Hempty.
Qed.

End StepFacts.

Section ForgottenFacts.
Context `{JsonParser}.

Lemma step_deliveries_mono e w w' :
  step e w = Some w' → (length (deliveries w) ≤ length (deliveries w'))%nat.
Proof.
  intros Hstep. destruct e as [spans|h outcome| | |i].
  - apply step_export_effect in Hstep as (ds & -> & _). rewrite length_app. lia.
  - simpl in Hstep.
    destruct (deliveries w !! h) as [d|]; [|done].
    destruct (settled w !! h); [done|]. injection Hstep as <-.
    by destruct (settle_effect h d outcome w) as (_ & _ & -> & _).
  - by injection Hstep as <-.
  - by injection Hstep as <-.
  - simpl in Hstep. destruct (tasks w !! i) as [t|]; [simpl in Hstep|done].
    destruct t as [call promises|call awaited|call awaited]; simpl in Hstep.
    + destruct (Promise_allSettled _ promises); [|done]. by injection Hstep as <-.
    + destruct (Promise_all _ awaited); [|done]. by injection Hstep as <-.
    + destruct (Promise_all _ awaited) as [[v|e]|]; [| |done]; by injection Hstep as <-.
Qed.

(** A [shutdown] that resumes over a non-empty [pendingExports] empties it and
    settles nothing. *)
Lemma shutdown_over_pending_clears e w w' :
  consistent w → shutdown_over_pending e w = true → step e w = Some w' →
  pendingExports (this w') = [] ∧ in_flight w' = in_flight w
  ∧ deliveries w' = deliveries w.
Proof.
  intros (Hok & _) Hover Hstep. destruct e as [| | | |i]; try done.
  simpl in Hover, Hstep. destruct (tasks w !! i) as [t|]; [simpl in Hstep|done].
  destruct t as [| |call awaited]; try done. simpl in Hstep.
  destruct (Promise_all _ awaited) as [r|] eqn:Hr; [|done].
  pose proof (Promise_all_fulfilled (set_tasks (delete i (tasks w)) w) _ _ Hok Hr) as ->.
  by injection Hstep as <-.
Qed.

Lemma filter_ge_in_flight_all w :
  filter (λ h, (length (deliveries w) ≤ h)%nat) (in_flight w) = [].
Proof.
  apply elem_of_nil_inv. intros h Hh.
  apply list_elem_of_filter in Hh as [Hge Hh].
  apply elem_of_in_flight in Hh as [Hlt _]. lia.
Qed.

(** [pendingExports] holds the deliveries in flight that were issued after the
    last [shutdown] that resumed over a non-empty [pendingExports]. *)
Lemma run_pending_since events w w' n :
  consistent w → run events w = Some w' →
  (n ≤ length (deliveries w))%nat →
  pendingExports (this w) = filter (λ h, (n ≤ h)%nat) (in_flight w) →
  pendingExports (this w')
  = filter (λ h, (forgotten_below events w n ≤ h)%nat) (in_flight w').
Proof.
  revert w n. induction events as [|e events IH]; intros w n Hw Hrun Hn Heq;
    simpl in Hrun.
  - by injection Hrun as <-.
  - destruct (step e w) as [w1|] eqn:Hstep; [simpl in Hrun|done].
    cbn [forgotten_below]. rewrite Hstep.
    pose proof (step_deliveries_mono e w w1 Hstep) as Hmono.
    destruct (step_change e w w1 Hw Hstep) as (Hw1 & Hchange).
    apply IH; [exact Hw1|exact Hrun| |].
    + destruct (shutdown_over_pending e w); lia.
    + destruct (shutdown_over_pending e w) eqn:Hover.
      * destruct (shutdown_over_pending_clears e w w1 Hw Hover Hstep) as (-> & -> & _).
        symmetry. apply filter_ge_in_flight_all.
      * destruct Hchange as [(m & Hp & Hf)|[(h & Hp & Hf)|(Hp & Hf & Hempty)]].
        -- rewrite Hp, Hf, Heq, filter_app. f_equal. symmetry.
           apply filter_all, Forall_forall. intros x Hx. apply elem_of_seq in Hx. lia.
        -- rewrite Hp, Hf, Heq, !list_filter_filter. apply list_filter_iff. tauto.
        -- rewrite Hp, Hf, <- Heq. symmetry. by apply Hempty.
Qed.

End ForgottenFacts.

(** C2, as stated, fails: [shutdown()] is called, then [export] issues a
    delivery while the shutdown waits at its [await], then the shutdown
    resumes and assigns the empty array.  The delivery has not settled and
    is no longer in [pendingExports]. *)
Lemma shutdown_forgets_unsettled_delivery :
  ∃ w, run [CallShutdown; CallExport [valid_span]; Resume 0] (new_world example_config)
       = Some w
       ∧ length (deliveries w) = 1%nat
       ∧ settled w !! 0%nat = None
       ∧ in_flight w = [0%nat]
       ∧ pendingExports (this w) = []
       ∧ pendingExports (this w) ≠ in_flight w.
Proof.
  eexists. split; [vm_compute; reflexivity|].
  repeat split; try (vm_compute; reflexivity). vm_compute. discriminate.
Qed.

(** C2, amended.  In every world a run reaches, [pendingExports] holds only
    deliveries issued by [export] that have not settled, each at most once and
    in the order of issue.  It holds exactly those issued after the last
    [shutdown] that resumed over a non-empty [pendingExports], and so all of
    them when no [shutdown] of the run did.  A call of [export] appends the
    promises of the deliveries it issues, and the completion of a request,
    whatever its outcome, filters the promise out. *)
Theorem pendingExports_in_flight (P : JsonParser) (config : FreeplayConfig)
    (events : list Event) (w : World) :
  run events (new_world config) = Some w →
  sublist (pendingExports (this w)) (in_flight w)
  ∧ NoDup (pendingExports (this w))
  ∧ (no_shutdown_over_pending events (new_world config) = true →
     pendingExports (this w) = in_flight w)
  ∧ (∀ spans w', step (CallExport spans) w = Some w' →
       ∃ ds, deliveries w' = (deliveries w ++ ds)%list
             ∧ pendingExports (this w')
               = (pendingExports (this w) ++ seq (length (deliveries w)) (length ds))%list)
  ∧ (∀ h outcome w', step (RequestCompletes h outcome) w = Some w' →
       pendingExports (this w') = filter (λ q, q ≠ h) (pendingExports (this w))
       ∧ (h ∉ pendingExports (this w')) ∧ (h ∉ in_flight w'))
  ∧ pendingExports (this w)
    = filter (λ h, (forgotten_below events (new_world config) 0 ≤ h)%nat) (in_flight w).
Proof.
  intros Hrun.
  pose proof (consistent_new_world config) as Hnew.
  assert (Hsub : sublist (pendingExports (this w)) (in_flight w)).
  { eapply run_pending_sublist; [exact Hnew|exact Hrun|]. simpl. constructor. }
  split; [exact Hsub|]. split; [|split; [|split; [|split]]].
  - eapply sublist_NoDup; [apply NoDup_in_flight|exact Hsub].
  - intros Hquiet. by eapply run_pending_exact.
  - intros spans w' Hstep.
    apply step_export_effect in Hstep as (ds & Hd & Hp & _). by exists ds.
  - intros h outcome w' Hstep. simpl in Hstep.
    destruct (deliveries w !! h) as [d|] eqn:Hd; [|done].
    destruct (settled w !! h) eqn:Hh; [done|].
    injection Hstep as <-.
    destruct (settle_effect h d outcome w) as (Hs & Hp & _).
    split; [exact Hp|]. split.
    + rewrite Hp, list_elem_of_filter. tauto.
    + rewrite elem_of_in_flight, Hs, lookup_insert_eq. intros [_ ?]. done.
  - eapply run_pending_since; [exact Hnew|exact Hrun|simpl; lia|reflexivity].
Qed.

Lemma pendingExports_in_flight_witness :
  (∃ w, run quiet_shutdown_run (new_world example_config) = Some w
        ∧ no_shutdown_over_pending quiet_shutdown_run (new_world example_config) = true
        ∧ pendingExports (this w) = in_flight w
        ∧ pendingExports (this w) = [2%nat])
  ∧ (∃ w, run racing_shutdown_run (new_world example_config) = Some w
          ∧ forgotten_below racing_shutdown_run (new_world example_config) 0 = 1%nat
          ∧ in_flight w = [1%nat]
          ∧ pendingExports (this w) = filter (λ h, (1 ≤ h)%nat) (in_flight w)).
Proof.
  split.
  - eexists. split; [vm_compute; reflexivity|].
    match goal with
    | |- _ ∧ _ = in_flight ?w ∧ _ =>
        assert (Hrun : run quiet_shutdown_run (new_world example_config) = Some w)
          by (vm_compute; reflexivity)
    end.
    assert (Hquiet : no_shutdown_over_pending quiet_shutdown_run (new_world example_config)
                     = true) by (vm_compute; reflexivity).
    split; [exact Hquiet|].
    split; [|vm_compute; reflexivity].
    exact (proj1 (proj2 (proj2
             (pendingExports_in_flight reference_parser example_config
                quiet_shutdown_run _ Hrun))) Hquiet).
  - eexists. split; [vm_compute; reflexivity|].
    match goal with
    | |- _ ∧ in_flight ?w = _ ∧ _ =>
        assert (Hrun : run racing_shutdown_run (new_world example_config) = Some w)
          by (vm_compute; reflexivity)
    end.
    assert (Hn : forgotten_below racing_shutdown_run (new_world example_config) 0 = 1%nat)
      by (vm_compute; reflexivity).
    split; [exact Hn|]. split; [vm_compute; reflexivity|].
    pose proof (proj2 (proj2 (proj2 (proj2 (proj2
                  (pendingExports_in_flight reference_parser example_config
                     racing_shutdown_run _ Hrun)))))) as Hsince.
    rewrite Hn in Hsince. exact Hsince.
Defined.

(** ** Reporting to the callback *)

(** In every world a run reaches, every result a callback received has code 0:
    the promise kept for a delivery is the one the [catch] handler returns
    into, which is fulfilled whatever the request came to. *)
Lemma callback_always_success (P : JsonParser) (config : FreeplayConfig)
    (events : list Event) (w : World) :
  run events (new_world config) = Some w → callbacks_success w.
Proof.
  intros Hrun.
  by destruct (run_consistent events _ _ (consistent_new_world config) Hrun) as (_ & _ & ?).
Qed.

(** C1. The code at the batch of the claim: two valid spans; the request of
    the first is answered with status 500, that of the second with status 200;
    then the reaction on [Promise.allSettled] runs.  The failure is written to
    the console, both delivery promises are fulfilled, and the callback is
    invoked once, with code 0 and no error, where the claim has code 1 and an
    error counting one failed delivery. *)
Theorem failed_delivery_reported_as_success :
  ∃ w, run [CallExport [valid_span; valid_stream_span];
            RequestCompletes 0 (Fulfilled {| status := 500 |});
            RequestCompletes 1 (Fulfilled {| status := 200 |});
            Resume 0]
         (new_world example_config) = Some w
       ∧ length (deliveries w) = 2%nat
       ∧ console w
         = [console_error
              "Failed to export span ai.generateText.doGenerate to Freeplay: HTTP error! status: 500"]
       ∧ settled w !! 0%nat = Some (Fulfilled tt)
       ∧ settled w !! 1%nat = Some (Fulfilled tt)
       ∧ callback_calls w = [(0%nat, {| code := 0; error := None |})].
Proof.
  eexists. split; [vm_compute; reflexivity|].
  repeat split; vm_compute; reflexivity.
Qed.

(** C3. The code at a batch of one span whose prompt messages are the JSON
    text of an object and that has a response text: [messages.push] throws a
    [TypeError] outside every [try], so [export] throws; the callback is not
    invoked, and no reaction is left that could invoke it later. *)
Theorem export_throws_on_object_messages :
  process_span (constructor example_config) span_object_messages
  = Raised (mkError TypeError "messages.push is not a function")
  ∧ ∃ w, step (CallExport [span_object_messages]) (new_world example_config) = Some w
         ∧ export_calls w = [Throw (mkError TypeError "messages.push is not a function")]
         ∧ callback_calls w = []
         ∧ tasks w = [].
Proof.
  split; [vm_compute; reflexivity|].
  eexists. split; [vm_compute; reflexivity|].
  repeat split; vm_compute; reflexivity.
Qed.

(** ** [forceFlush] and [shutdown] *)

Section FlushFacts.
Context `{JsonParser}.


Lemma no_resume_while_pending w i k awaited :
  consistent w → suspended_on w i k awaited →
  Exists (λ h, settled w !! h = None) awaited →
  step (Resume i) w = None.
Proof.
  intros (Hok & _) Hsusp Hex.
  apply Exists_exists in Hex as (h & Hin & Hh).
  pose proof (Promise_all_pending (set_tasks (delete i (tasks w)) w) awaited h Hok Hin Hh)
    as Hpending.
  destruct Hsusp as [Ht|Ht]; simpl; rewrite Ht; simpl; by rewrite Hpending.
Qed.


End FlushFacts.



(** * Further properties *)

(** ** Session ids, both ways *)

(** X1. Two trace ids with the same session id are the same trace id: the
    session id determines the trace id it was derived from. *)
Theorem formatTraceIdToUUID_injective (t1 t2 u : string) :
  formatTraceIdToUUID t1 = Return u →
  formatTraceIdToUUID t2 = Return u →
  t1 = t2.
Proof.
  assert (Hback : ∀ t, formatTraceIdToUUID t = Return u → without_hyphen_positions u = t).
  { intros t Ht.
    destruct (decide (String.length t = 32%nat)) as [Hlen|Hlen].
    - destruct (formatTraceIdToUUID_shape t Hlen) as (u' & Hu' & _ & _ & _ & _ & _ & Hrec).
      rewrite Ht in Hu'. by injection Hu' as <-.
    - unfold formatTraceIdToUUID in Ht. apply Nat.eqb_neq in Hlen.
      by rewrite Hlen in Ht. }
  intros H1 H2. by rewrite <- (Hback t1 H1), <- (Hback t2 H2).
Qed.

Lemma formatTraceIdToUUID_injective_witness :
  formatTraceIdToUUID example_traceId = Return "01234567-89ab-cdef-0123-456789abcdef"
  ∧ example_traceId = "0123456789abcdef0123456789abcdef".
Proof.
  assert (Hu : formatTraceIdToUUID example_traceId
               = Return "01234567-89ab-cdef-0123-456789abcdef") by reflexivity.
  split; [exact Hu|].
  exact (formatTraceIdToUUID_injective example_traceId "0123456789abcdef0123456789abcdef"
           _ Hu eq_refl).
Defined.

(** ** More on input extraction *)

Lemma inputs_prefix_inj (k k' : string) :
  inputs_prefix ++ k = inputs_prefix ++ k' → k = k'.
Proof.
  intros Heq. rewrite <- (slice_from_app inputs_prefix k), Heq. apply slice_from_app.
Qed.

(** X2. [extractInputs] returns the value [v] under the input name [k] exactly
    when [k] is not [__proto__], the attributes hold [v] under the prefix
    followed by [k], and [v] is neither [null] nor [undefined].  So the result
    never has the key [__proto__] and never holds [null] or [undefined]. *)
Theorem extractInputs_spec (attributes : gmap string Value) (k : string) (v : Value) :
  extractInputs attributes !! k = Some v
  ↔ k ≠ "__proto__" ∧ attributes !! (inputs_prefix ++ k) = Some v
    ∧ v ≠ VNull ∧ v ≠ VUndefined.
Proof.
  rewrite extractInputs_lookup. unfold input_entry.
  destruct (decide (k = "__proto__")) as [->|Hk]; [by split; [|intros [? _]]|].
  destruct (attributes !! (inputs_prefix ++ k)) as [v'|]; [|by split; [|intros (_ & ? & _)]].
  destruct (decide (v' = VNull)) as [->|Hn]; simpl.
  { split; [done|]. intros (_ & [= <-] & ? & _). done. }
  destruct (decide (v' = VUndefined)) as [->|Hu]; simpl.
  { split; [done|]. intros (_ & [= <-] & _ & ?). done. }
  rewrite !bool_decide_eq_true_2 by done. simpl.
  split; [by intros [= <-]|by intros (_ & ? & _)].
Qed.

(** X3. An attribute whose key does not start with the prefix has no part in
    the result: setting it to any value, or removing it, leaves the extracted
    inputs as they are. *)
Theorem extractInputs_unprefixed (attributes : gmap string Value) (key : string)
    (v : Value) :
  startsWith key inputs_prefix = false →
  extractInputs (<[key := v]> attributes) = extractInputs attributes
  ∧ extractInputs (delete key attributes) = extractInputs attributes.
Proof.
  intros Hkey.
  assert (Hne : ∀ k, key ≠ inputs_prefix ++ k).
  { intros k ->. by rewrite startsWith_app in Hkey. }
  split; apply map_eq; intros k; rewrite !extractInputs_lookup.
  - by rewrite lookup_insert_ne.
  - by rewrite lookup_delete_ne.
Qed.

Lemma extractInputs_unprefixed_witness :
  startsWith "other.key" inputs_prefix = false
  ∧ extractInputs (<["other.key" := VString "x"]> (attributes valid_span))
    = extractInputs (attributes valid_span).
Proof.
  assert (Hkey : startsWith "other.key" inputs_prefix = false) by reflexivity.
  split; [exact Hkey|].
  exact (proj1 (extractInputs_unprefixed (attributes valid_span) "other.key"
                  (VString "x") Hkey)).
Defined.

(** X4. Writing a prefixed attribute acts on the extracted inputs under the
    suffix, for every suffix but [__proto__]: a value that is neither [null]
    nor [undefined] is inserted (replacing what was there), [null] or
    [undefined] remove the entry, and removing the attribute removes it too. *)
Theorem extractInputs_prefixed (attributes : gmap string Value) (k : string) (v : Value) :
  k ≠ "__proto__" →
  (v ≠ VNull → v ≠ VUndefined →
   extractInputs (<[inputs_prefix ++ k := v]> attributes)
   = <[k := v]> (extractInputs attributes))
  ∧ (v = VNull ∨ v = VUndefined →
     extractInputs (<[inputs_prefix ++ k := v]> attributes)
     = delete k (extractInputs attributes))
  ∧ extractInputs (delete (inputs_prefix ++ k) attributes)
    = delete k (extractInputs attributes).
Proof.
  intros Hk.
  assert (Hcase : ∀ k', k' ≠ k → inputs_prefix ++ k ≠ inputs_prefix ++ k').
  { intros k' Hne Heq. apply Hne. symmetry. by apply inputs_prefix_inj. }
  split; [|split].
  - intros Hn Hu. apply map_eq. intros k'. rewrite extractInputs_lookup.
    destruct (decide (k' = k)) as [->|Hne].
    + rewrite !lookup_insert_eq. unfold input_entry.
      rewrite decide_False by done. by rewrite !bool_decide_eq_true_2.
    + rewrite !lookup_insert_ne by auto. by rewrite extractInputs_lookup.
  - intros Hv. apply map_eq. intros k'. rewrite extractInputs_lookup.
    destruct (decide (k' = k)) as [->|Hne].
    + rewrite lookup_insert_eq, lookup_delete_eq. unfold input_entry.
      rewrite decide_False by done. by destruct Hv as [-> | ->].
    + rewrite lookup_insert_ne, lookup_delete_ne by auto. by rewrite extractInputs_lookup.
  - apply map_eq. intros k'. rewrite extractInputs_lookup.
    destruct (decide (k' = k)) as [->|Hne].
    + rewrite !lookup_delete_eq. unfold input_entry. by rewrite decide_False.
    + rewrite !lookup_delete_ne by auto. by rewrite extractInputs_lookup.
Qed.

Lemma extractInputs_prefixed_witness :
  "user" ≠ "__proto__"
  ∧ VString "bob" ≠ VNull ∧ VString "bob" ≠ VUndefined
  ∧ extractInputs (<[inputs_prefix ++ "user" := VString "bob"]> (attributes valid_span))
    = <["user" := VString "bob"]> (extractInputs (attributes valid_span))
  ∧ extractInputs (<[inputs_prefix ++ "user" := VNull]> (attributes valid_span))
    = delete "user" (extractInputs (attributes valid_span)).
Proof.
  assert (Hk : "user" ≠ "__proto__") by discriminate.
  assert (Hn : VString "bob" ≠ VNull) by discriminate.
  assert (Hu : VString "bob" ≠ VUndefined) by discriminate.
  split; [exact Hk|]. split; [exact Hn|]. split; [exact Hu|]. split.
  - exact (proj1 (extractInputs_prefixed (attributes valid_span) "user" (VString "bob") Hk)
             Hn Hu).
  - exact (proj1 (proj2 (extractInputs_prefixed (attributes valid_span) "user" VNull Hk))
             (or_introl eq_refl)).
Defined.

(** ** The constructor *)

(** X5. The base URL of a constructed exporter is never empty: a configured
    URL that is not empty is kept, an absent or an empty one gives the default
    URL.  The exporter starts with no pending export and takes the other three
    fields from the configuration. *)
Theorem constructor_baseUrl (config : FreeplayConfig) :
  baseUrl (constructor config) ≠ ""
  ∧ (∀ u, config_baseUrl config = Some u → u ≠ "" → baseUrl (constructor config) = u)
  ∧ (config_baseUrl config = None ∨ config_baseUrl config = Some "" →
     baseUrl (constructor config) = default_baseUrl)
  ∧ pendingExports (constructor config) = []
  ∧ projectId (constructor config) = config_projectId config
  ∧ apiKey (constructor config) = config_apiKey config
  ∧ environment (constructor config) = config_environment config.
Proof.
  unfold constructor, default_baseUrl. simpl.
  destruct (config_baseUrl config) as [u|].
  - destruct (String.eqb_spec u "") as [->|Hu].
    + repeat split; try done. intros u [= <-]. done.
    + repeat split; try done. intros u' [= <-]. done.
      intros [?|[= ?]]; done.
  - repeat split; done.
Qed.

(** ** The reaction on [Promise.allSettled] *)

(** X6. Given the states of the promises of a batch, the reaction reports
    code 0 without an error exactly when no state is rejected; otherwise it
    reports code 1 with the error [Failed to export n span(s)], [n] the number
    of rejected states. *)
Theorem aggregate_spec (results : list (PromiseState unit)) :
  (Forall (λ r, is_rejected r = false) results →
   aggregate results = {| code := 0; error := None |})
  ∧ (Exists (λ r, is_rejected r = true) results →
     aggregate results
     = {| code := 1;
          error := Some (mkError PlainError
                           ("Failed to export "
                            ++ pretty (length (List.filter is_rejected results))
                            ++ " span(s)")) |}
     ∧ (0 < length (List.filter is_rejected results))%nat).
Proof.
  split.
  - intros Hall. unfold aggregate.
    assert (Hnone : List.filter is_rejected results = []).
    { induction Hall as [|r results Hr Hall IH]; [done|]. simpl. by rewrite Hr. }
    by rewrite Hnone.
  - intros Hex. unfold aggregate.
    assert (Hsome : (0 < length (List.filter is_rejected results))%nat).
    { induction Hex as [r results Hr|r results Hex IH]; simpl.
      - rewrite Hr. simpl. lia.
      - destruct (is_rejected r); simpl; lia. }
    split; [|exact Hsome]. apply Nat.ltb_lt in Hsome. by rewrite Hsome.
Qed.

Lemma aggregate_spec_witness :
  Exists (λ r, is_rejected r = true)
    [Fulfilled tt; Rejected (mkError PlainError "HTTP error! status: 500")]
  ∧ aggregate [Fulfilled tt; Rejected (mkError PlainError "HTTP error! status: 500")]
    = {| code := 1;
         error := Some (mkError PlainError "Failed to export 1 span(s)") |}
  ∧ Forall (λ r, is_rejected r = false) [Fulfilled tt; Fulfilled tt]
  ∧ aggregate [Fulfilled tt; Fulfilled tt] = {| code := 0; error := None |}.
Proof.
  assert (Hex : Exists (λ r, is_rejected r = true)
                  [Fulfilled tt; Rejected (mkError PlainError "HTTP error! status: 500")])
    by (right; left; reflexivity).
  assert (Hall : Forall (λ r : PromiseState unit, is_rejected r = false)
                   [Fulfilled tt; Fulfilled tt]) by (repeat constructor).
  split; [exact Hex|]. split; [exact (proj1 (proj2 (aggregate_spec _) Hex))|].
  split; [exact Hall|]. exact (proj1 (aggregate_spec _) Hall).
Defined.

Lemma constructor_baseUrl_witness :
  config_baseUrl example_config = None
  ∧ baseUrl (constructor example_config) = "https://app.freeplay.ai/api/v2"
  ∧ config_baseUrl (mkConfig (Some "http://localhost:8080") "p" "k" "dev")
    = Some "http://localhost:8080"
  ∧ baseUrl (constructor (mkConfig (Some "http://localhost:8080") "p" "k" "dev"))
    = "http://localhost:8080".
Proof.
  split; [reflexivity|]. split.
  - exact (proj1 (proj2 (proj2 (constructor_baseUrl example_config))) (or_introl eq_refl)).
  - split; [reflexivity|].
    apply (proj1 (proj2 (constructor_baseUrl
                           (mkConfig (Some "http://localhost:8080") "p" "k" "dev"))));
      [reflexivity|discriminate].
Defined.

(** ** The request of a span *)

Section RequestFacts.
Context `{JsonParser}.

(** X7. Every request the loop builds is a POST to the completions URL of the
    session derived from the span's trace id, under the exporter's base URL
    and project, with a JSON content type and the API key as bearer token; its
    payload carries the span's function id verbatim, the exporter's
    environment and the inputs extracted from the span's attributes. *)
Theorem built_request_shape (self : FreeplayExporter) (span : ReadableSpan)
    (req : Request) :
  process_span self span = Built req →
  ∃ sessionId,
    formatTraceIdToUUID (traceId span) = Return sessionId
    ∧ url req = baseUrl self ++ "/projects/" ++ projectId self ++ "/sessions/"
                ++ sessionId ++ "/completions"
    ∧ method req = "POST"
    ∧ headers req = [("Content-Type", "application/json");
                     ("Authorization", "Bearer " ++ apiKey self)]
    ∧ prompt_template_version_id (prompt_info (body req))
      = get_property (attributes span) "ai.telemetry.functionId"
    ∧ truthy (prompt_template_version_id (prompt_info (body req))) = true
    ∧ prompt_info_environment (prompt_info (body req)) = environment self
    ∧ inputs (body req) = extractInputs (attributes span).
Proof.
  unfold process_span. destruct (includes _ _); [|done].
  destruct (formatTraceIdToUUID _) as [sessionId|]; [|done].
  destruct (truthy (get_property _ "ai.telemetry.functionId")) eqn:Hf; [simpl|done].
  destruct (truthy (get_property _ "ai.prompt.messages")); [|done].
  destruct (JSON_parse _); [|done].
  destruct (if truthy _ then _ else _); [|done].
  intros [= <-]. exists sessionId. by repeat split.
Qed.

(** X8. The messages of a built request are what [JSON.parse] made of the
    prompt messages; when the span has a truthy response text, that value is
    an array and the request carries it with one more message at its end, of
    role [assistant] and with [String(responseText)] for content: the text
    itself for a string, the decimal digits for an integer up to 2^53, and
    what the host prints for a number beyond. *)
Theorem built_request_messages (self : FreeplayExporter) (span : ReadableSpan)
    (req : Request) :
  process_span self span = Built req →
  ∃ parsed,
    JSON_parse (ToString (get_property (attributes span) "ai.prompt.messages"))
    = Return parsed
    ∧ (truthy (get_property (attributes span) "ai.response.text") = false →
       messages (body req) = parsed)
    ∧ (truthy (get_property (attributes span) "ai.response.text") = true →
       ∃ items content,
         parsed = JArr items
         ∧ messages (body req)
           = JArr (items ++ [JObj [("role", JStr "assistant"); ("content", JStr content)]])
         ∧ content = ToString (get_property (attributes span) "ai.response.text")
         ∧ (∀ s, get_property (attributes span) "ai.response.text" = VString s →
              content = s)
         ∧ (get_property (attributes span) "ai.response.text" = VBool true →
            content = "true")
         ∧ (∀ n, get_property (attributes span) "ai.response.text" = VNumber n →
              (Z.abs n ≤ 2 ^ 53)%Z → content = pretty n)
         ∧ (∀ n, get_property (attributes span) "ai.response.text" = VNumber n →
              content = Number_toString n)).
Proof.
  unfold process_span. destruct (includes _ _); [|done].
  destruct (formatTraceIdToUUID _) as [sessionId|]; [|done].
  destruct (truthy (get_property _ "ai.telemetry.functionId")); [simpl|done].
  destruct (truthy (get_property _ "ai.prompt.messages")); [|done].
  destruct (JSON_parse _) as [parsed|]; [|done].
  intros Hreq. exists parsed. split; [done|].
  destruct (truthy (get_property _ "ai.response.text")).
  - destruct parsed as [| | | |items|]; simpl in Hreq; try done.
    injection Hreq as <-. split; [done|]. intros _.
    exists items, (ToString (get_property (attributes span) "ai.response.text")).
    split; [done|]. split; [done|]. split; [done|].
    split; [by intros s ->|]. split; [by intros ->|].
    split; [|by intros n ->].
    intros n -> Hn. simpl. by apply Number_toString_safe.
  - injection Hreq as <-. by split.
Qed.

Lemma raises_iff_raised (self : FreeplayExporter) (span : ReadableSpan) :
  ((∃ e, process_span self span = Raised e) ↔ raises span = true)
  ∧ ∀ e, process_span self span = Raised e →
         ∃ parsed,
           JSON_parse (ToString (get_property (attributes span) "ai.prompt.messages"))
           = Return parsed
           ∧ is_array parsed = false ∧ e = push_error parsed ∧ kind e = TypeError.
Proof.
  unfold raises, matched_and_valid, parses, process_span, formatTraceIdToUUID.
  destruct (includes _ _); simpl; [|by split; [split; [intros [? ?]|]|]].
  destruct (String.length (traceId span) =? 32)%nat; simpl;
    [|by split; [split; [intros [? ?]|]|]].
  destruct (truthy (get_property _ "ai.telemetry.functionId")); simpl;
    [|by split; [split; [intros [? ?]|]|]].
  destruct (truthy (get_property _ "ai.prompt.messages")); simpl;
    [|by split; [split; [intros [? ?]|]|]].
  destruct (JSON_parse _) as [parsed|]; simpl;
    [|by split; [split; [intros [? ?]|]|]].
  destruct (truthy (get_property _ "ai.response.text")); simpl;
    [|by split; [split; [intros [? ?]|]|]].
  destruct parsed as [| | | |items|]; simpl;
    try (split; [split; [done|by eexists]
                |intros e [= <-]; eexists; by repeat split]).
  by split; [split; [intros [? ?]|]|].
Qed.

Lemma process_span_not_raised self span :
  raises span = false →
  process_span self span = Ignored
  ∨ (∃ warning, process_span self span = Dropped warning)
  ∨ (∃ req, process_span self span = Built req).
Proof.
  intros Hr. destruct (process_span self span) as [|warning|req|e] eqn:Hp; eauto.
  assert (raises span = true) by (apply (raises_iff_raised self span); eauto).
  congruence.
Qed.

(** X9. A turn of the loop throws exactly for a matched and valid span that
    has a truthy response text and prompt messages parsing to something other
    than an array.  What it throws is the [TypeError] of [messages.push] on
    the parsed value: that [push] cannot be read off [null], or that
    [messages.push] is not a function. *)
Theorem process_span_raises (self : FreeplayExporter) (span : ReadableSpan) :
  ((∃ e, process_span self span = Raised e) ↔ raises span = true)
  ∧ ∀ e, process_span self span = Raised e →
         ∃ parsed,
           JSON_parse (ToString (get_property (attributes span) "ai.prompt.messages"))
           = Return parsed
           ∧ is_array parsed = false ∧ kind e = TypeError
           ∧ (parsed = JNull →
              message e = "Cannot read properties of null (reading 'push')")
           ∧ (parsed ≠ JNull → message e = "messages.push is not a function").
Proof.
  split; [apply raises_iff_raised|].
  intros e He.
  destruct (proj2 (raises_iff_raised self span) e He) as (parsed & Hp & Harr & -> & Hk).
  exists parsed. split; [exact Hp|]. split; [exact Harr|]. split; [exact Hk|].
  split; [by intros ->|]. intros Hnull. by destruct parsed.
Qed.

Lemma omap_built_ext self self' (spans : list ReadableSpan) :
  (∀ span, built self' span = built self span) →
  omap (built self') spans = omap (built self) spans.
Proof.
  intros Hext. induction spans as [|span spans IH]; [done|].
  cbn -[built]. by rewrite Hext, IH.
Qed.

Lemma omap_built_cons self span (spans : list ReadableSpan) :
  omap (built self) (span :: spans)
  = match process_span self span with
    | Built req => {| request := req; span_name := name span |} :: omap (built self) spans
    | _ => omap (built self) spans
    end.
Proof. cbn -[built]. unfold built at 1. by destruct (process_span self span). Qed.

Lemma omap_warning_ext self self' (spans : list ReadableSpan) :
  (∀ span, warning_of self' span = warning_of self span) →
  omap (warning_of self') spans = omap (warning_of self) spans.
Proof.
  intros Hext. induction spans as [|span spans IH]; [done|].
  cbn -[warning_of]. by rewrite Hext, IH.
Qed.

Lemma omap_warning_cons self span (spans : list ReadableSpan) :
  omap (warning_of self) (span :: spans)
  = match process_span self span with
    | Dropped warning => console_warn warning :: omap (warning_of self) spans
    | _ => omap (warning_of self) spans
    end.
Proof. cbn -[warning_of]. unfold warning_of at 1. by destruct (process_span self span). Qed.

(** The loop over a batch without a raising span. *)
Lemma export_loop_no_raise spans promises w :
  Forall (λ s, raises s = false) spans →
  ∃ w', export_loop spans promises w
        = (w', Return (promises
                       ++ seq (length (deliveries w))
                            (length (omap (built (this w)) spans)))%list)
        ∧ deliveries w' = (deliveries w ++ omap (built (this w)) spans)%list
        ∧ pendingExports (this w')
          = (pendingExports (this w)
             ++ seq (length (deliveries w)) (length (omap (built (this w)) spans)))%list
        ∧ tasks w' = tasks w ∧ callback_calls w' = callback_calls w
        ∧ settled w' = settled w
        ∧ console w' = (console w ++ omap (warning_of (this w)) spans)%list.
Proof.
  revert promises w. induction spans as [|span spans IH]; intros promises w Hall.
  - eexists. simpl. rewrite !app_nil_r. by repeat split.
  - apply Forall_cons in Hall as [Hspan Hall].
    rewrite omap_built_cons, omap_warning_cons. cbn [export_loop].
    destruct (process_span_not_raised (this w) span Hspan)
      as [Hp|[[warning Hp]|[req Hp]]]; rewrite Hp.
    + by apply IH.
    + destruct (IH promises (write_console (console_warn warning) w) Hall)
        as (w' & Hloop & Hd & Hpe & Ht & Hc & Hs & Hcon).
      exists w'. split; [exact Hloop|]. simpl in Hcon. rewrite <- app_assoc in Hcon.
      by repeat split.
    + set (w2 := set_pendingExports _ _).
      destruct (IH (promises ++ [length (deliveries w)])%list w2 Hall)
        as (w' & Hloop & Hd & Hpe & Ht & Hc & Hs & Hcon).
      assert (Hb : omap (built (this w2)) spans = omap (built (this w)) spans)
        by (apply omap_built_ext; intros s; reflexivity).
      assert (Hwarn : omap (warning_of (this w2)) spans = omap (warning_of (this w)) spans)
        by (apply omap_warning_ext; intros s; reflexivity).
      rewrite Hb in Hloop, Hd, Hpe. rewrite Hwarn in Hcon.
      assert (Hlen : length (deliveries w2) = S (length (deliveries w))).
      { unfold w2. simpl. rewrite length_app. simpl. lia. }
      rewrite Hlen in Hloop, Hpe.
      exists w'. rewrite Hloop, Hd, Hpe. simpl. rewrite <- !app_assoc. simpl.
      by repeat split.
Qed.

(** The deliveries the loop makes are those of the matched and valid spans. *)
Lemma sent_for_matched_and_valid self (spans : list ReadableSpan) :
  Forall (λ s, raises s = false) spans →
  Forall2 (sent_for self) (filter (λ s, matched_and_valid s = true) spans)
    (omap (built self) spans).
Proof.
  induction 1 as [|span spans Hspan Hall IH]; [constructor|].
  rewrite omap_built_cons, filter_cons.
  destruct (decide (matched_and_valid span = true)) as [Hv|Hv].
  - destruct (process_span_valid self span Hv) as [[req Hreq]|[e He]].
    + rewrite Hreq. constructor; [by exists req|exact IH].
    + assert (raises span = true) by (apply (raises_iff_raised self span); eauto).
      congruence.
  - apply not_true_is_false in Hv.
    by destruct (process_span_unmatched_or_malformed self span Hv) as [-> | [warning ->]].
Qed.

(** X10. For a batch without a raising span, [export] returns normally and
    calls [fetch] once for each matched and valid span, in the order of the
    batch, with the request built for that span; the promises of these
    deliveries are appended to [pendingExports].  When there is at least one,
    the callback is not invoked before [export] returns: a reaction on exactly
    these promises is left pending. *)
Theorem export_deliveries (spans : list ReadableSpan) (call : nat) (w : World) :
  Forall (λ s, raises s = false) spans →
  (export spans call w).2 = Return tt
  ∧ ∃ ds,
      Forall2 (sent_for (this w)) (filter (λ s, matched_and_valid s = true) spans) ds
      ∧ length ds = length (filter (λ s, matched_and_valid s = true) spans)
      ∧ deliveries (export spans call w).1 = (deliveries w ++ ds)%list
      ∧ pendingExports (this (export spans call w).1)
        = (pendingExports (this w) ++ seq (length (deliveries w)) (length ds))%list
      ∧ (ds ≠ [] →
         callback_calls (export spans call w).1 = callback_calls w
         ∧ tasks (export spans call w).1
           = (tasks w
              ++ [Aggregation call (seq (length (deliveries w)) (length ds))])%list).
Proof.
  intros Hall.
  pose proof (sent_for_matched_and_valid (this w) spans Hall) as Hsent.
  unfold export.
  destruct (export_loop_no_raise spans [] w Hall) as (w' & -> & Hd & Hpe & Ht & Hc & _).
  simpl. destruct (omap (built (this w)) spans) as [|d ds] eqn:Hb; simpl.
  - split; [done|]. exists []. rewrite Hd, Hpe.
    split; [exact Hsent|]. split; [by rewrite <- (Forall2_length _ _ _ Hsent)|].
    by repeat split.
  - split; [done|]. exists (d :: ds). rewrite Hd, Hpe, Ht, Hc.
    split; [exact Hsent|]. split; [by rewrite <- (Forall2_length _ _ _ Hsent)|].
    by repeat split.
Qed.

(** X11. When a span of the batch raises, [export] throws at the first such
    span, with the [TypeError] that span raises: the requests of the matched
    and valid spans before it have been sent and their promises are in
    [pendingExports], the spans after it are not looked at, the callback is
    not invoked and no reaction is registered to invoke it. *)
Theorem export_throws_midway (pre post : list ReadableSpan) (span : ReadableSpan)
    (call : nat) (w : World) :
  Forall (λ s, raises s = false) pre →
  raises span = true →
  ∃ e ds,
    process_span (this w) span = Raised e
    ∧ kind e = TypeError
    ∧ (export (pre ++ span :: post) call w).2 = Throw e
    ∧ Forall2 (sent_for (this w)) (filter (λ s, matched_and_valid s = true) pre) ds
    ∧ length ds = length (filter (λ s, matched_and_valid s = true) pre)
    ∧ deliveries (export (pre ++ span :: post) call w).1 = (deliveries w ++ ds)%list
    ∧ pendingExports (this (export (pre ++ span :: post) call w).1)
      = (pendingExports (this w) ++ seq (length (deliveries w)) (length ds))%list
    ∧ callback_calls (export (pre ++ span :: post) call w).1 = callback_calls w
    ∧ tasks (export (pre ++ span :: post) call w).1 = tasks w.
Proof.
  intros Hpre Hspan.
  pose proof (sent_for_matched_and_valid (this w) pre Hpre) as Hsent.
  destruct (proj2 (proj1 (raises_iff_raised (this w) span)) Hspan) as [e He].
  destruct (proj2 (raises_iff_raised (this w) span) e He) as (parsed & Hp & _ & -> & Hk).
  exists (push_error parsed), (omap (built (this w)) pre).
  split; [exact He|]. split; [exact Hk|].
  unfold export. rewrite export_loop_app.
  destruct (export_loop_no_raise pre [] w Hpre) as (w' & -> & Hd & Hpe & Ht & Hc & _).
  simpl.
  destruct (proj2 (proj1 (raises_iff_raised (this w') span)) Hspan) as [e' He'].
  destruct (proj2 (raises_iff_raised (this w') span) e' He') as (parsed' & Hp' & _ & -> & _).
  rewrite Hp in Hp'. injection Hp' as <-.
  rewrite He'. simpl. rewrite Hd, Hpe, Ht, Hc.
  split; [done|]. split; [exact Hsent|].
  split; [by rewrite <- (Forall2_length _ _ _ Hsent)|]. by repeat split.
Qed.

(** X12. Spans the filter does not select have no effect wherever they stand
    in the batch: [export] does to the world, and returns or throws, exactly
    as it does for the batch with these spans left out. *)
Theorem export_ignores_unmatched (spans : list ReadableSpan) (call : nat) (w : World) :
  export spans call w
  = export (filter (λ s, includes relevant_names (name s) = true) spans) call w.
Proof.
  unfold export.
  assert (Hloop : ∀ promises w0,
            export_loop spans promises w0
            = export_loop (filter (λ s, includes relevant_names (name s) = true) spans)
                promises w0).
  { induction spans as [|span spans IH]; intros promises w0; [done|].
    rewrite filter_cons.
    destruct (decide (includes relevant_names (name span) = true)) as [Hn|Hn].
    - simpl. destruct (process_span (this w0) span); by rewrite ?IH.
    - apply not_true_is_false in Hn.
      rewrite (export_loop_ignored span) by (by apply process_span_ignored).
      apply IH. }
  by rewrite Hloop.
Qed.

(** X20. For a batch without a raising span, [export] writes to the console
    one warning for each span it drops, in the order of the batch, and nothing
    else. *)
Theorem export_console (spans : list ReadableSpan) (call : nat) (w : World) :
  Forall (λ s, raises s = false) spans →
  console (export spans call w).1
  = (console w ++ omap (warning_of (this w)) spans)%list.
Proof.
  intros Hall. unfold export.
  destruct (export_loop_no_raise spans [] w Hall)
    as (w' & -> & _ & _ & _ & _ & _ & Hcon).
  by destruct (length _ =? 0)%nat.
Qed.

(** X21. A dropped span gets the warning of the first check it fails, in the
    order trace id, function id, prompt messages present, prompt messages
    parse: a span whose trace id is not 32 characters long is reported for
    its trace id whatever its attributes, a span without function id is
    reported for that whatever its prompt messages, and so on. *)
Theorem dropped_warning_first_check (self : FreeplayExporter) (span : ReadableSpan) :
  includes relevant_names (name span) = true →
  (String.length (traceId span) ≠ 32%nat →
   process_span self span
   = Dropped ("Skipping span " ++ name span
              ++ " due to invalid traceId: Invalid traceId length; expected 32 characters"))
  ∧ (String.length (traceId span) = 32%nat →
     (truthy (get_property (attributes span) "ai.telemetry.functionId") = false →
      process_span self span
      = Dropped ("Missing ai.telemetry.functionId for span " ++ name span))
     ∧ (truthy (get_property (attributes span) "ai.telemetry.functionId") = true →
        (truthy (get_property (attributes span) "ai.prompt.messages") = false →
         process_span self span
         = Dropped ("Missing ai.prompt.messages for span " ++ name span))
        ∧ (truthy (get_property (attributes span) "ai.prompt.messages") = true →
           ∀ e, JSON_parse (ToString (get_property (attributes span) "ai.prompt.messages"))
                = Throw e →
                process_span self span
                = Dropped ("Failed to parse ai.prompt.messages for span " ++ name span
                           ++ ": " ++ message e)))).
Proof.
  intros Hn. unfold process_span, formatTraceIdToUUID. rewrite Hn. split.
  - intros Hlen. apply Nat.eqb_neq in Hlen. by rewrite Hlen.
  - intros Hlen. apply Nat.eqb_eq in Hlen. rewrite Hlen. simpl. split.
    + intros Hf. by rewrite Hf.
    + intros Hf. rewrite Hf. simpl. split.
      * intros Hp. by rewrite Hp.
      * intros Hp e He. by rewrite Hp, He.
Qed.

End RequestFacts.

Lemma built_request_shape_witness :
  ∃ req,
    process_span (constructor example_config) valid_span = Built req
    ∧ url req
      = "https://app.freeplay.ai/api/v2/projects/proj/sessions/01234567-89ab-cdef-0123-456789abcdef/completions"
    ∧ method req = "POST".
Proof.
  eexists. split; [vm_compute; reflexivity|].
  match goal with
  | |- url ?r = _ ∧ _ =>
      assert (Hreq : process_span (constructor example_config) valid_span = Built r)
        by (vm_compute; reflexivity);
      destruct (built_request_shape (constructor example_config) valid_span r Hreq)
        as (sessionId & Hid & Hurl & Hmethod & _)
  end.
  split; [|exact Hmethod].
  rewrite Hurl. vm_compute in Hid. injection Hid as <-. reflexivity.
Defined.

Lemma built_request_messages_witness :
  ∃ req,
    process_span (constructor example_config) valid_stream_span = Built req
    ∧ truthy (get_property (attributes valid_stream_span) "ai.response.text") = true
    ∧ ∃ items,
        JSON_parse (ToString (get_property (attributes valid_stream_span)
                                "ai.prompt.messages")) = Return (JArr items)
        ∧ messages (body req)
          = JArr (items ++ [JObj [("role", JStr "assistant"); ("content", JStr "hello")]]).
Proof.
  eexists. split; [vm_compute; reflexivity|].
  assert (Htext : truthy (get_property (attributes valid_stream_span) "ai.response.text")
                  = true) by (vm_compute; reflexivity).
  split; [exact Htext|].
  match goal with
  | |- ∃ items, _ ∧ messages (body ?r) = _ =>
      assert (Hreq : process_span (constructor example_config) valid_stream_span = Built r)
        by (vm_compute; reflexivity);
      destruct (built_request_messages (constructor example_config) valid_stream_span r Hreq)
        as (parsed & Hparsed & _ & Hpush)
  end.
  destruct (Hpush Htext) as (items & content & -> & Hmsgs & _ & Hstring & _).
  exists items. split; [exact Hparsed|].
  rewrite Hmsgs, (Hstring "hello") by (vm_compute; reflexivity). reflexivity.
Defined.

Lemma process_span_raises_witness :
  raises span_object_messages = true
  ∧ raises span_null_messages = true
  ∧ process_span (constructor example_config) span_object_messages
    = Raised (mkError TypeError "messages.push is not a function")
  ∧ process_span (constructor example_config) span_null_messages
    = Raised (mkError TypeError "Cannot read properties of null (reading 'push')")
  ∧ ∃ parsed,
      JSON_parse (ToString (get_property (attributes span_null_messages)
                              "ai.prompt.messages")) = Return parsed
      ∧ is_array parsed = false.
Proof.
  assert (Hr : raises span_object_messages = true) by (vm_compute; reflexivity).
  assert (Hn : raises span_null_messages = true) by (vm_compute; reflexivity).
  assert (He : process_span (constructor example_config) span_null_messages
               = Raised (mkError TypeError
                           "Cannot read properties of null (reading 'push')"))
    by (vm_compute; reflexivity).
  split; [exact Hr|]. split; [exact Hn|].
  split; [vm_compute; reflexivity|]. split; [exact He|].
  destruct (proj2 (process_span_raises (constructor example_config) span_null_messages)
              _ He) as (parsed & Hp & Harr & _).
  exists parsed. split; [exact Hp|exact Harr].
Defined.

Lemma export_deliveries_witness :
  Forall (λ s, raises s = false) [valid_span; span_missing_prompt; valid_stream_span]
  ∧ (export [valid_span; span_missing_prompt; valid_stream_span] 0
       (new_world example_config)).2 = Return tt
  ∧ ∃ ds,
      length ds = 2%nat
      ∧ deliveries (export [valid_span; span_missing_prompt; valid_stream_span] 0
                      (new_world example_config)).1 = ds.
Proof.
  assert (Hall : Forall (λ s, raises s = false)
                   [valid_span; span_missing_prompt; valid_stream_span])
    by (repeat constructor).
  split; [exact Hall|].
  destruct (export_deliveries _ 0%nat (new_world example_config) Hall)
    as (Hret & ds & _ & Hlen & Hd & _).
  split; [exact Hret|]. exists ds. split; [|exact Hd].
  rewrite Hlen. vm_compute. reflexivity.
Defined.

Lemma export_throws_midway_witness :
  Forall (λ s, raises s = false) [valid_span]
  ∧ raises span_null_messages = true
  ∧ ∃ (e : JsError) (ds : list Delivery),
      (export ([valid_span] ++ span_null_messages :: [valid_stream_span]) 0
         (new_world example_config)).2 = Throw e
      ∧ kind e = TypeError
      ∧ length ds = 1%nat
      ∧ pendingExports
          (this (export ([valid_span] ++ span_null_messages :: [valid_stream_span]) 0
                   (new_world example_config)).1)
        = seq 0 (length ds).
Proof.
  assert (Hpre : Forall (λ s, raises s = false) [valid_span]) by (repeat constructor).
  assert (Hr : raises span_null_messages = true) by (vm_compute; reflexivity).
  split; [exact Hpre|]. split; [exact Hr|].
  destruct (export_throws_midway [valid_span] [valid_stream_span] span_null_messages
              0%nat (new_world example_config) Hpre Hr)
    as (e & ds & _ & Hk & Hthrow & _ & Hlen & _ & Hpe & _).
  exists e, ds. split; [exact Hthrow|]. split; [exact Hk|].
  split; [rewrite Hlen; vm_compute; reflexivity|exact Hpe].
Defined.

Lemma export_console_witness :
  Forall (λ s, raises s = false) [span_empty_functionId; valid_span; span_missing_prompt]
  ∧ console (export [span_empty_functionId; valid_span; span_missing_prompt] 0
               (new_world example_config)).1
    = [console_warn "Missing ai.telemetry.functionId for span ai.generateText.doGenerate";
       console_warn "Missing ai.prompt.messages for span ai.generateText.doGenerate"].
Proof.
  assert (Hall : Forall (λ s, raises s = false)
                   [span_empty_functionId; valid_span; span_missing_prompt])
    by (repeat constructor).
  split; [exact Hall|].
  rewrite (export_console _ 0%nat (new_world example_config) Hall).
  vm_compute. reflexivity.
Defined.

Lemma dropped_warning_first_check_witness :
  includes relevant_names (name span_empty_functionId) = true
  ∧ String.length (traceId span_empty_functionId) = 32%nat
  ∧ truthy (get_property (attributes span_empty_functionId) "ai.telemetry.functionId")
    = false
  ∧ process_span (constructor example_config) span_empty_functionId
    = Dropped "Missing ai.telemetry.functionId for span ai.generateText.doGenerate".
Proof.
  assert (Hn : includes relevant_names (name span_empty_functionId) = true) by reflexivity.
  assert (Hlen : String.length (traceId span_empty_functionId) = 32%nat) by reflexivity.
  assert (Hf : truthy (get_property (attributes span_empty_functionId)
                         "ai.telemetry.functionId") = false) by (vm_compute; reflexivity).
  split; [exact Hn|]. split; [exact Hlen|]. split; [exact Hf|].
  exact (proj1 (proj2 (dropped_warning_first_check (constructor example_config)
                         span_empty_functionId Hn) Hlen) Hf).
Defined.

(** ** Callbacks, once per call *)

Lemma accounted_perm (l l' : list nat) calls :
  l ≡ₚ l' → accounted l calls → accounted l' calls.
Proof.
  intros Hperm [Hnd Hiff]. split; [by rewrite <- Hperm|].
  intros c. rewrite <- Hperm. apply Hiff.
Qed.

Lemma accounted_lt (l : list nat) calls c :
  accounted l calls → c ∈ l → (c < length calls)%nat.
Proof. intros [_ Hiff] Hc. apply Hiff in Hc. by eapply lookup_lt_Some. Qed.

Lemma accounted_return (l : list nat) calls :
  accounted l calls → accounted (length calls :: l) (calls ++ [Return tt]).
Proof.
  intros Hacc. pose proof Hacc as [Hnd Hiff]. split.
  - apply NoDup_cons. split; [|done].
    intros Hin. apply (accounted_lt _ _ _ Hacc) in Hin. lia.
  - intros c. rewrite elem_of_cons, lookup_app_Some, Hiff. simpl.
    split.
    + intros [->|Hc]; [right; split; [lia|by rewrite Nat.sub_diag]|by left].
    + intros [Hc|[Hge Hc]]; [by right|]. left.
      destruct (c - length calls)%nat as [|n] eqn:Hn; [lia|done].
Qed.

Lemma accounted_throw (l : list nat) calls e :
  accounted l calls → accounted l (calls ++ [Throw e]).
Proof.
  intros [Hnd Hiff]. split; [done|].
  intros c. rewrite lookup_app_Some, Hiff. split; [by left|].
  intros [Hc|[Hge Hc]]; [done|].
  by destruct (c - length calls)%nat as [|n].
Qed.

Lemma omap_delete {A B} (f : A → option B) (l : list A) i t :
  l !! i = Some t →
  omap f l ≡ₚ (match f t with Some b => [b] | None => [] end ++ omap f (delete i l))%list.
Proof.
  intros Ht. rewrite delete_take_drop.
  rewrite <- (take_drop_middle l i t Ht) at 1.
  rewrite !omap_app. cbn [omap list_omap].
  destruct (f t) as [b|]; simpl; [|done].
  by rewrite Permutation_middle.
Qed.

Section CallbackFacts.
Context `{JsonParser}.

(** What a call of [export] leaves behind: its completion; and for a call that
    returned, either the invocation of its callback or its reaction. *)
Lemma step_export_cases spans w w' :
  step (CallExport spans) w = Some w' →
  ((∃ e, export_calls w' = (export_calls w ++ [Throw e])%list)
   ∧ tasks w' = tasks w ∧ callback_calls w' = callback_calls w)
  ∨ (export_calls w' = (export_calls w ++ [Return tt])%list
     ∧ tasks w' = tasks w
     ∧ callback_calls w'
       = (callback_calls w
          ++ [(length (export_calls w), {| code := 0; error := None |})])%list)
  ∨ (export_calls w' = (export_calls w ++ [Return tt])%list
     ∧ (∃ promises,
          tasks w' = (tasks w ++ [Aggregation (length (export_calls w)) promises])%list)
     ∧ callback_calls w' = callback_calls w).
Proof.
  unfold step, export. intros Hstep.
  destruct (export_loop spans [] w) as [w1 c] eqn:Hloop.
  apply export_loop_effect in Hloop as (ds & _ & _ & _ & _ & Ht & He & Hcb & _).
  destruct c as [promises|e]; [destruct (length promises =? 0)%nat|];
    injection Hstep as <-; simpl; rewrite ?Ht, ?He, ?Hcb.
  - right; left. by repeat split.
  - right; right. split; [done|]. split; [by eexists|done].
  - left. split; [by eexists|done].
Qed.

Lemma step_accounted e w w' :
  consistent w → step e w = Some w' → callbacks_accounted w → callbacks_accounted w'.
Proof.
  unfold callbacks_accounted, called_back, pending_reactions.
  intros Hw Hstep Hacc. destruct e as [spans|h outcome| | |i].
  - apply step_export_cases in Hstep
      as [([e He] & Ht & Hcb)|[(He & Ht & Hcb)|(He & [promises Ht] & Hcb)]];
      rewrite He, Ht, Hcb.
    + by apply accounted_throw.
    + rewrite fmap_app. simpl. eapply accounted_perm; [|by apply accounted_return].
      rewrite <- app_assoc. simpl. by rewrite <- Permutation_middle.
    + rewrite omap_app. simpl. eapply accounted_perm; [|by apply accounted_return].
      rewrite app_assoc. by rewrite <- Permutation_cons_append.
  - simpl in Hstep.
    destruct (deliveries w !! h) as [d|]; [|done].
    destruct (settled w !! h); [done|]. injection Hstep as <-.
    destruct (settle_effect h d outcome w) as (_ & _ & _ & -> & -> & -> & _). done.
  - injection Hstep as <-. simpl. rewrite omap_app. simpl. by rewrite app_nil_r.
  - injection Hstep as <-. simpl. rewrite omap_app. simpl. by rewrite app_nil_r.
  - simpl in Hstep. destruct (tasks w !! i) as [t|] eqn:Ht; [simpl in Hstep|done].
    pose proof (omap_delete aggregation_call (tasks w) i t Ht) as Hperm.
    destruct t as [call promises|call awaited|call awaited]; simpl in Hstep, Hperm.
    + destruct (Promise_allSettled _ promises) as [results|]; [|done].
      injection Hstep as <-. simpl. rewrite fmap_app. simpl.
      eapply accounted_perm; [|exact Hacc].
      rewrite Hperm, <- app_assoc. simpl. by rewrite <- Permutation_middle.
    + destruct (Promise_all _ awaited) as [r|]; [|done].
      injection Hstep as <-. simpl.
      eapply accounted_perm; [|exact Hacc]. by rewrite Hperm.
    + destruct (Promise_all _ awaited) as [[v|e]|]; [| |done];
        injection Hstep as <-; simpl;
        (eapply accounted_perm; [|exact Hacc]); by rewrite Hperm.
Qed.

Lemma run_accounted events w w' :
  consistent w → run events w = Some w' → callbacks_accounted w → callbacks_accounted w'.
Proof.
  revert w. induction events as [|e events IH]; intros w Hw Hrun Hacc; simpl in Hrun.
  - by injection Hrun as <-.
  - destruct (step e w) as [w1|] eqn:Hstep; [simpl in Hrun|done].
    eapply IH; [|exact Hrun|].
    + by eapply step_change.
    + by eapply step_accounted.
Qed.

Lemma Promise_all_awaited w promises :
  Promise_all w promises = Some (Fulfilled tt) →
  ∀ h, h ∈ promises → is_Some (settled w !! h).
Proof.
  induction promises as [|p promises IH]; intros Hall h Hin.
  - by apply elem_of_nil in Hin.
  - simpl in Hall.
    destruct (settled w !! p) as [[v|e]|] eqn:Hp.
    + destruct (Promise_all w promises) as [[v'|e']|]; [|done|done].
      apply elem_of_cons in Hin as [->|Hin]; [by rewrite Hp|].
      apply IH; [by destruct v'|done].
    + done.
    + by destruct (Promise_all w promises) as [[v'|e']|].
Qed.

End CallbackFacts.

(** X13. In every world a run reaches: the callback of an export call has
    been invoked at most once; it has been invoked only for calls that
    returned, never for a call that threw; and a call that returned either has
    had its callback invoked or still has its reaction pending, not both. *)
Theorem callback_once_per_call (P : JsonParser) (config : FreeplayConfig)
    (events : list Event) (w : World) :
  run events (new_world config) = Some w →
  NoDup (called_back w)
  ∧ (∀ c, c ∈ called_back w → export_calls w !! c = Some (Return tt))
  ∧ (∀ c e, export_calls w !! c = Some (Throw e) →
       (c ∉ called_back w) ∧ (c ∉ pending_reactions w))
  ∧ (∀ c, export_calls w !! c = Some (Return tt) →
       (c ∈ called_back w ∧ (c ∉ pending_reactions w))
       ∨ ((c ∉ called_back w) ∧ c ∈ pending_reactions w)).
Proof.
  intros Hrun.
  assert (Hacc : callbacks_accounted w).
  { eapply run_accounted; [apply consistent_new_world|exact Hrun|].
    split; [constructor|]. intros c. simpl. rewrite lookup_nil.
    split; [intros Hc; by apply elem_of_nil in Hc|done]. }
  destruct Hacc as [Hnd Hiff].
  apply NoDup_app in Hnd as (Hnd & Hdisj & _).
  split; [exact Hnd|]. split; [|split].
  - intros c Hc. apply Hiff, elem_of_app. by left.
  - intros c e Hc.
    assert (Hnot : c ∉ (called_back w ++ pending_reactions w)%list).
    { intros Hin. apply Hiff in Hin. congruence. }
    split; intros Hin; apply Hnot, elem_of_app; auto.
  - intros c Hc. apply Hiff, elem_of_app in Hc as [Hc|Hc].
    + left. split; [done|by apply Hdisj].
    + right. split; [|done]. intros Hc'. by apply (Hdisj c).
Qed.

Lemma callback_once_per_call_witness :
  ∃ w, run [CallExport [span_object_messages];
            CallExport [other_span];
            CallExport [valid_span];
            RequestCompletes 0 (Fulfilled {| status := 200 |})]
         (new_world example_config) = Some w
       ∧ export_calls w !! 0%nat
         = Some (Throw (mkError TypeError "messages.push is not a function"))
       ∧ (0%nat ∉ called_back w)
       ∧ export_calls w !! 1%nat = Some (Return tt)
       ∧ 1%nat ∈ called_back w
       ∧ export_calls w !! 2%nat = Some (Return tt)
       ∧ 2%nat ∈ pending_reactions w.
Proof.
  eexists. split; [vm_compute; reflexivity|].
  match goal with
  | |- export_calls ?w !! _ = _ ∧ _ =>
      assert (Hrun : run [CallExport [span_object_messages];
                          CallExport [other_span];
                          CallExport [valid_span];
                          RequestCompletes 0 (Fulfilled {| status := 200 |})]
                       (new_world example_config) = Some w)
        by (vm_compute; reflexivity);
      destruct (callback_once_per_call reference_parser example_config _ w Hrun)
        as (_ & _ & Hthrown & Hreturned)
  end.
  match goal with
  | |- ?A ∧ _ => assert (Hc0 : A) by (vm_compute; reflexivity)
  end.
  split; [exact Hc0|]. split; [exact (proj1 (Hthrown _ _ Hc0))|].
  match goal with
  | |- ?A ∧ _ => assert (Hc1 : A) by (vm_compute; reflexivity)
  end.
  split; [exact Hc1|]. split.
  { destruct (Hreturned _ Hc1) as [[Hin _]|[_ Hin]]; [exact Hin|].
    exfalso. vm_compute in Hin. apply list_elem_of_singleton in Hin. discriminate Hin. }
  match goal with
  | |- ?A ∧ _ => assert (Hc2 : A) by (vm_compute; reflexivity)
  end.
  split; [exact Hc2|].
  destruct (Hreturned _ Hc2) as [[Hin _]|[_ Hin]]; [|exact Hin].
  exfalso. vm_compute in Hin. apply list_elem_of_singleton in Hin. discriminate Hin.
Defined.

(** X14. In every world a run reaches, the reaction of an export call cannot
    run while one of the call's delivery promises is pending; once all of them
    are settled it runs, invokes the callback of that call with code 0, and is
    gone from the suspended tasks. *)
Theorem reaction_after_all_settle (P : JsonParser) (config : FreeplayConfig)
    (events : list Event) (w : World) (i call : nat) (promises : list Handle) :
  run events (new_world config) = Some w →
  tasks w !! i = Some (Aggregation call promises) →
  (Exists (λ h, settled w !! h = None) promises → step (Resume i) w = None)
  ∧ (Forall (λ h, is_Some (settled w !! h)) promises →
     ∃ w', step (Resume i) w = Some w'
           ∧ callback_calls w'
             = (callback_calls w ++ [(call, {| code := 0; error := None |})])%list
           ∧ tasks w' = delete i (tasks w)
           ∧ this w' = this w ∧ deliveries w' = deliveries w).
Proof.
  intros Hrun Ht.
  destruct (run_consistent events _ _ (consistent_new_world config) Hrun) as (Hok & _).
  pose proof (Hok : settled_fulfilled (set_tasks (delete i (tasks w)) w)) as Hok'.
  split.
  - intros Hex. simpl. rewrite Ht. simpl.
    assert (Hnone : Promise_allSettled (set_tasks (delete i (tasks w)) w) promises = None)
      by (by apply mapM_None).
    by rewrite Hnone.
  - intros Hall. simpl. rewrite Ht. simpl.
    destruct (Promise_allSettled (set_tasks (delete i (tasks w)) w) promises)
      as [results|] eqn:Hres.
    + simpl. rewrite (aggregate_fulfilled _ _ _ Hok' Hres).
      eexists. split; [reflexivity|]. by repeat split.
    + apply mapM_None in Hres. apply Exists_exists in Hres as (h & Hin & Hh).
      rewrite Forall_forall in Hall. destruct (Hall h Hin) as [r Hr].
      simpl in Hh. congruence.
Qed.

Lemma reaction_after_all_settle_witness :
  (∃ w, run [CallExport [valid_span; valid_stream_span];
             RequestCompletes 1 (Fulfilled {| status := 200 |})]
          (new_world example_config) = Some w
        ∧ tasks w !! 0%nat = Some (Aggregation 0 [0; 1]%nat)
        ∧ Exists (λ h, settled w !! h = None) [0; 1]%nat
        ∧ step (Resume 0) w = None)
  ∧ (∃ w, run [CallExport [valid_span; valid_stream_span];
               RequestCompletes 1 (Fulfilled {| status := 200 |});
               RequestCompletes 0 (Rejected (mkError TypeError "fetch failed"))]
            (new_world example_config) = Some w
          ∧ tasks w !! 0%nat = Some (Aggregation 0 [0; 1]%nat)
          ∧ Forall (λ h, is_Some (settled w !! h)) [0; 1]%nat
          ∧ ∃ w', step (Resume 0) w = Some w'
                  ∧ callback_calls w' = [(0%nat, {| code := 0; error := None |})]).
Proof.
  split.
  - eexists. split; [vm_compute; reflexivity|].
    match goal with
    | |- tasks ?w !! _ = _ ∧ _ =>
        assert (Hrun : run [CallExport [valid_span; valid_stream_span];
                            RequestCompletes 1 (Fulfilled {| status := 200 |})]
                         (new_world example_config) = Some w)
          by (vm_compute; reflexivity);
        assert (Ht : tasks w !! 0%nat = Some (Aggregation 0 [0; 1]%nat))
          by (vm_compute; reflexivity);
        assert (Hex : Exists (λ h, settled w !! h = None) [0; 1]%nat)
          by (left; vm_compute; reflexivity);
        pose proof (proj1 (reaction_after_all_settle reference_parser example_config
                             _ w 0%nat 0%nat [0; 1]%nat Hrun Ht) Hex) as Hnone
    end.
    split; [exact Ht|]. split; [exact Hex|exact Hnone].
  - eexists. split; [vm_compute; reflexivity|].
    match goal with
    | |- tasks ?w !! _ = _ ∧ _ =>
        assert (Hrun : run [CallExport [valid_span; valid_stream_span];
                            RequestCompletes 1 (Fulfilled {| status := 200 |});
                            RequestCompletes 0 (Rejected (mkError TypeError "fetch failed"))]
                         (new_world example_config) = Some w)
          by (vm_compute; reflexivity);
        assert (Ht : tasks w !! 0%nat = Some (Aggregation 0 [0; 1]%nat))
          by (vm_compute; reflexivity);
        assert (Hall : Forall (λ h, is_Some (settled w !! h)) [0; 1]%nat)
          by (repeat constructor; vm_compute; eexists; reflexivity);
        destruct (proj2 (reaction_after_all_settle reference_parser example_config
                           _ w 0%nat 0%nat [0; 1]%nat Hrun Ht) Hall)
          as (w' & Hstep & Hcb & _)
    end.
    split; [exact Ht|]. split; [exact Hall|].
    exists w'. split; [exact Hstep|]. rewrite Hcb. vm_compute. reflexivity.
Defined.

(** ** Completion of a request *)

Lemma settle_this promise d outcome w :
  this (settle promise d outcome w)
  = {| pendingExports := filter (λ q, q ≠ promise) (pendingExports (this w));
       baseUrl := baseUrl (this w); projectId := projectId (this w);
       apiKey := apiKey (this w); environment := environment (this w) |}.
Proof.
  unfold settle, then_check_ok, catch_log, finally_remove.
  by destruct outcome as [response|reason]; [destruct (ok response)|].
Qed.

Lemma settle_console promise d outcome w :
  console (settle promise d outcome w)
  = match outcome with
    | Fulfilled response =>
        if ok response then console w
        else (console w
              ++ [console_error ("Failed to export span " ++ span_name d
                                 ++ " to Freeplay: HTTP error! status: "
                                 ++ pretty (status response))])%list
    | Rejected reason =>
        (console w
         ++ [console_error ("Failed to export span " ++ span_name d ++ " to Freeplay: "
                            ++ message reason)])%list
    end.
Proof.
  unfold settle, then_check_ok, catch_log, finally_remove.
  by destruct outcome as [response|reason]; [destruct (ok response)|].
Qed.

Lemma settle_console_lines promise d outcome w :
  console (settle promise d outcome w) = (console w ++ failure_lines d outcome)%list.
Proof.
  rewrite settle_console. unfold failure_lines.
  destruct outcome as [response|reason]; [destruct (ok response)|];
    by rewrite ?app_nil_r.
Qed.

Section CompletionFacts.
Context `{JsonParser}.

(** X15. The completion of a request writes to the console exactly when the
    request failed: nothing for a response with a status from 200 to 299; for
    any other status one error line naming the span and the status; for a
    transport failure one error line naming the span and the reason.  In no
    case is a callback invoked or a request sent by the completion. *)
Theorem completion_logs_failure (h : Handle) (outcome : PromiseState Response)
    (w w' : World) :
  step (RequestCompletes h outcome) w = Some w' →
  ∃ d, deliveries w !! h = Some d
       ∧ (console w' = console w ↔ succeeded outcome = true)
       ∧ match outcome with
         | Fulfilled response =>
             (200 ≤ status response ≤ 299)%Z ∧ console w' = console w
             ∨ ¬ (200 ≤ status response ≤ 299)%Z
               ∧ console w'
                 = (console w
                    ++ [console_error ("Failed to export span " ++ span_name d
                                       ++ " to Freeplay: HTTP error! status: "
                                       ++ pretty (status response))])%list
         | Rejected reason =>
             console w'
             = (console w
                ++ [console_error ("Failed to export span " ++ span_name d
                                   ++ " to Freeplay: " ++ message reason)])%list
         end
       ∧ callback_calls w' = callback_calls w
       ∧ deliveries w' = deliveries w.
Proof.
  intros Hstep. simpl in Hstep.
  destruct (deliveries w !! h) as [d|] eqn:Hd; [|done].
  destruct (settled w !! h); [done|]. injection Hstep as <-.
  exists d. split; [done|].
  destruct (settle_effect h d outcome w) as (_ & _ & Hds & _ & _ & Hcb & _).
  rewrite settle_console, Hcb, Hds.
  assert (Hgrow : ∀ line, (console w ++ [line])%list ≠ console w).
  { intros line Heq. apply (f_equal length) in Heq.
    rewrite length_app in Heq. simpl in Heq. lia. }
  destruct outcome as [response|reason]; simpl.
  - unfold ok. destruct (200 <=? status response)%Z eqn:Hlo;
      destruct (status response <=? 299)%Z eqn:Hhi; simpl;
      try apply Z.leb_le in Hlo; try apply Z.leb_le in Hhi;
      try apply Z.leb_gt in Hlo; try apply Z.leb_gt in Hhi.
    + split; [done|]. split; [left; split; [lia|done]|done].
    + split; [split; [intros Heq; by apply Hgrow in Heq|done]|].
      split; [right; split; [lia|done]|done].
    + split; [split; [intros Heq; by apply Hgrow in Heq|done]|].
      split; [right; split; [lia|done]|done].
    + split; [split; [intros Heq; by apply Hgrow in Heq|done]|].
      split; [right; split; [lia|done]|done].
  - split; [split; [intros Heq; by apply Hgrow in Heq|done]|]. done.
Qed.

(** X16. Deliveries are independent: two requests of different deliveries may
    complete in either order.  When one order is possible so is the other; the
    two worlds have the same promises pending and settled, with the same
    states, and the same console lines, those of the two completions standing
    in the order of the completions. *)
Theorem completions_commute (h1 h2 : Handle) (o1 o2 : PromiseState Response)
    (w w1 : World) :
  h1 ≠ h2 →
  run [RequestCompletes h1 o1; RequestCompletes h2 o2] w = Some w1 →
  ∃ w2 d1 d2,
    run [RequestCompletes h2 o2; RequestCompletes h1 o1] w = Some w2
    ∧ same_but_console w1 w2
    ∧ deliveries w !! h1 = Some d1 ∧ deliveries w !! h2 = Some d2
    ∧ console w1 = (console w ++ failure_lines d1 o1 ++ failure_lines d2 o2)%list
    ∧ console w2 = (console w ++ failure_lines d2 o2 ++ failure_lines d1 o1)%list
    ∧ console w1 ≡ₚ console w2.
Proof.
  intros Hne Hrun. simpl in Hrun.
  destruct (deliveries w !! h1) as [d1|] eqn:Hd1; [|done].
  destruct (settled w !! h1) eqn:Hs1; [done|]. simpl in Hrun.
  destruct (settle_effect h1 d1 o1 w) as (Hs & _ & Hds & Ht & He & Hcb & Ha & Has).
  rewrite Hds, Hs, lookup_insert_ne in Hrun by done.
  destruct (deliveries w !! h2) as [d2|] eqn:Hd2; [|done].
  destruct (settled w !! h2) eqn:Hs2; [done|]. injection Hrun as <-.
  destruct (settle_effect h2 d2 o2 w) as (Hs' & _ & Hds' & Ht' & He' & Hcb' & Ha' & Has').
  simpl. rewrite Hd2, Hs2. simpl. rewrite Hds', Hs', lookup_insert_ne, Hd1, Hs1 by done.
  exists (settle h1 d1 o1 (settle h2 d2 o2 w)), d1, d2.
  split; [reflexivity|].
  assert (Hc1 : console (settle h2 d2 o2 (settle h1 d1 o1 w))
                = (console w ++ failure_lines d1 o1 ++ failure_lines d2 o2)%list)
    by (by rewrite !settle_console_lines, <- app_assoc).
  assert (Hc2 : console (settle h1 d1 o1 (settle h2 d2 o2 w))
                = (console w ++ failure_lines d2 o2 ++ failure_lines d1 o1)%list)
    by (by rewrite !settle_console_lines, <- app_assoc).
  split; [|split; [done|split; [done|split; [exact Hc1|split; [exact Hc2|]]]]].
  - destruct (settle_effect h2 d2 o2 (settle h1 d1 o1 w))
      as (Hs12 & _ & Hds12 & Ht12 & He12 & Hcb12 & Ha12 & Has12).
    destruct (settle_effect h1 d1 o1 (settle h2 d2 o2 w))
      as (Hs21 & _ & Hds21 & Ht21 & He21 & Hcb21 & Ha21 & Has21).
    unfold same_but_console.
    rewrite Hds12, Hds21, Ht12, Ht21, He12, He21, Hcb12, Hcb21, Ha12, Ha21, Has12, Has21.
    rewrite Hds, Hds', Ht, Ht', He, He', Hcb, Hcb', Ha, Ha', Has, Has'.
    rewrite Hs12, Hs21, Hs, Hs'.
    split; [|split; [done|]; split; [by apply insert_insert_ne|done]].
    rewrite !settle_this. simpl. f_equal.
    rewrite !list_filter_filter. apply list_filter_iff. tauto.
  - rewrite Hc1, Hc2. apply Permutation_app_head, Permutation_app_comm.
Qed.

End CompletionFacts.

Lemma completions_commute_witness :
  ∃ w w1,
    run [CallExport [valid_span; valid_stream_span]] (new_world example_config) = Some w
    ∧ 0%nat ≠ 1%nat
    ∧ run [RequestCompletes 0 (Fulfilled {| status := 500 |});
           RequestCompletes 1 (Rejected (mkError TypeError "fetch failed"))] w = Some w1
    ∧ ∃ w2, run [RequestCompletes 1 (Rejected (mkError TypeError "fetch failed"));
                 RequestCompletes 0 (Fulfilled {| status := 500 |})] w = Some w2
            ∧ same_but_console w1 w2
            ∧ console w1 ≡ₚ console w2.
Proof.
  eexists. eexists. split; [vm_compute; reflexivity|].
  assert (Hne : 0%nat ≠ 1%nat) by discriminate.
  split; [exact Hne|].
  match goal with
  | |- run ?evs ?w = Some ?w1 ∧ _ =>
      assert (Hrun : run evs w = Some w1) by (vm_compute; reflexivity);
      split; [exact Hrun|];
      destruct (completions_commute 0%nat 1%nat _ _ w w1 Hne Hrun)
        as (w2 & d1 & d2 & Hrun2 & Hsame & _ & _ & _ & _ & Hperm)
  end.
  exists w2. split; [exact Hrun2|]. split; [exact Hsame|exact Hperm].
Defined.

Lemma completion_logs_failure_witness :
  ∃ w w',
    run [CallExport [valid_span]] (new_world example_config) = Some w
    ∧ step (RequestCompletes 0 (Fulfilled {| status := 404 |})) w = Some w'
    ∧ console w' ≠ console w.
Proof.
  eexists. eexists. split; [vm_compute; reflexivity|].
  match goal with
  | |- step ?e ?w = Some ?w' ∧ _ =>
      assert (Hstep : step e w = Some w') by (vm_compute; reflexivity);
      split; [exact Hstep|];
      destruct (completion_logs_failure 0%nat _ w w' Hstep) as (d & _ & Hiff & _)
  end.
  intros Heq. apply Hiff in Heq. vm_compute in Heq. discriminate Heq.
Defined.

(** ** Nothing is left pending *)

(** X17. In every world a run reaches, once every request sent so far has
    completed, [pendingExports] is empty, whatever was flushed or shut down on
    the way. *)
Theorem nothing_pending_when_all_settled (P : JsonParser) (config : FreeplayConfig)
    (events : list Event) (w : World) :
  run events (new_world config) = Some w →
  (∀ h, (h < length (deliveries w))%nat → is_Some (settled w !! h)) →
  pendingExports (this w) = [].
Proof.
  intros Hrun Hall.
  assert (Hsub : sublist (pendingExports (this w)) (in_flight w)).
  { eapply run_pending_sublist; [apply consistent_new_world|exact Hrun|].
    simpl. constructor. }
  assert (Hnone : in_flight w = []).
  { apply elem_of_nil_inv. intros h Hh. apply elem_of_in_flight in Hh as [Hlt Hh].
    destruct (Hall h Hlt) as [r Hr]. congruence. }
  rewrite Hnone in Hsub. by apply sublist_nil_r.
Qed.

Lemma nothing_pending_when_all_settled_witness :
  ∃ w, run [CallExport [valid_span; valid_stream_span];
            RequestCompletes 1 (Fulfilled {| status := 503 |});
            RequestCompletes 0 (Fulfilled {| status := 200 |})]
         (new_world example_config) = Some w
       ∧ (∀ h, (h < length (deliveries w))%nat → is_Some (settled w !! h))
       ∧ pendingExports (this w) = [].
Proof.
  eexists. split; [vm_compute; reflexivity|].
  match goal with
  | |- (∀ h, (h < length (deliveries ?w))%nat → _) ∧ _ =>
      assert (Hrun : run [CallExport [valid_span; valid_stream_span];
                          RequestCompletes 1 (Fulfilled {| status := 503 |});
                          RequestCompletes 0 (Fulfilled {| status := 200 |})]
                       (new_world example_config) = Some w)
        by (vm_compute; reflexivity);
      assert (Hall : ∀ h, (h < length (deliveries w))%nat → is_Some (settled w !! h))
  end.
  { intros h Hlt. change (h < 2)%nat in Hlt.
    destruct h as [|[|h]]; [vm_compute; eexists; reflexivity
                           |vm_compute; eexists; reflexivity|lia]. }
  split; [exact Hall|].
  exact (nothing_pending_when_all_settled reference_parser example_config _ _ Hrun Hall).
Defined.

(** ** Flushing after an export *)

Section FlushAfterExport.
Context `{JsonParser}.

Lemma flush_waits_for_export (w w1 w2 : World) (spans : list ReadableSpan) (e : Event) :
  consistent w →
  step (CallExport spans) w = Some w1 →
  e = CallForceFlush ∨ e = CallShutdown →
  step e w1 = Some w2 →
  ∃ awaited,
    suspended_on w2 (length (tasks w1)) (async_calls w1) awaited
    ∧ (∀ h, (length (deliveries w) ≤ h < length (deliveries w1))%nat → h ∈ awaited)
    ∧ ((length (deliveries w) < length (deliveries w1))%nat →
       step (Resume (length (tasks w1))) w2 = None).
Proof.
  intros Hw Hexport He Hflush.
  destruct (step_change _ _ _ Hw Hexport) as [Hw1 _].
  destruct (step_change _ _ _ Hw1 Hflush) as [Hw2 _].
  apply step_export_effect in Hexport as (ds & Hd & Hp & Hs & _).
  exists (pendingExports (this w1)).
  assert (Hsusp : suspended_on w2 (length (tasks w1)) (async_calls w1)
                    (pendingExports (this w1))).
  { destruct He as [-> | ->]; injection Hflush as <-; [left|right];
      simpl; by apply list_lookup_middle. }
  assert (Hin : ∀ h, (length (deliveries w) ≤ h < length (deliveries w1))%nat →
                     h ∈ pendingExports (this w1)).
  { intros h Hh. rewrite Hp. apply elem_of_app. right. apply elem_of_seq.
    rewrite Hd, length_app in Hh. lia. }
  split; [exact Hsusp|]. split; [exact Hin|].
  intros Hlt. eapply no_resume_while_pending; [exact Hw2|exact Hsusp|].
  apply Exists_exists. exists (length (deliveries w)). split; [apply Hin; lia|].
  assert (Hs2 : settled w2 = settled w).
  { rewrite <- Hs. by destruct He as [-> | ->]; injection Hflush as <-. }
  rewrite Hs2. destruct (settled w !! length (deliveries w)) as [r|] eqn:Hr; [|done].
  destruct Hw as (Hok & _). apply Hok in Hr as [Hr _]. lia.
Qed.

Lemma flush_resumed_effect (w w' : World) (i k : nat) (awaited : list Handle) :
  consistent w →
  tasks w !! i = Some (InForceFlush k awaited) →
  step (Resume i) w = Some w' →
  this w' = this w ∧ deliveries w' = deliveries w ∧ settled w' = settled w
  ∧ console w' = console w ∧ callback_calls w' = callback_calls w
  ∧ async_settled w' !! k = Some (Fulfilled tt)
  ∧ ∀ h, h ∈ awaited → is_Some (settled w !! h).
Proof.
  intros (Hok & _) Ht Hstep. simpl in Hstep. rewrite Ht in Hstep. simpl in Hstep.
  destruct (Promise_all _ awaited) as [r|] eqn:Hr; [simpl in Hstep|done].
  pose proof (Promise_all_fulfilled (set_tasks (delete i (tasks w)) w) _ _ Hok Hr) as ->.
  injection Hstep as <-. simpl. repeat split; try done.
  - apply lookup_insert_eq.
  - intros h Hh. by apply (Promise_all_awaited _ _ Hr).
Qed.

End FlushAfterExport.

(** X18. In every world a run reaches, a [forceFlush] or a [shutdown] called
    after a call of [export] waits for every delivery that call issued: their
    promises are among those it is suspended on, and if the call issued at
    least one delivery the flush cannot resume at once. *)
Theorem flush_covers_export (P : JsonParser) (config : FreeplayConfig)
    (events : list Event) (w w1 w2 : World) (spans : list ReadableSpan) (e : Event) :
  run events (new_world config) = Some w →
  step (CallExport spans) w = Some w1 →
  e = CallForceFlush ∨ e = CallShutdown →
  step e w1 = Some w2 →
  ∃ awaited,
    suspended_on w2 (length (tasks w1)) (async_calls w1) awaited
    ∧ (∀ h, (length (deliveries w) ≤ h < length (deliveries w1))%nat → h ∈ awaited)
    ∧ ((length (deliveries w) < length (deliveries w1))%nat →
       step (Resume (length (tasks w1))) w2 = None).
Proof.
  intros Hrun. apply flush_waits_for_export.
  exact (run_consistent events _ _ (consistent_new_world config) Hrun).
Qed.

Lemma flush_covers_export_witness :
  ∃ w w1 w2,
    run [CallExport [valid_span]] (new_world example_config) = Some w
    ∧ step (CallExport [valid_stream_span; other_span]) w = Some w1
    ∧ step CallForceFlush w1 = Some w2
    ∧ (length (deliveries w) < length (deliveries w1))%nat
    ∧ step (Resume (length (tasks w1))) w2 = None.
Proof.
  eexists. eexists. eexists. split; [vm_compute; reflexivity|].
  split; [vm_compute; reflexivity|]. split; [vm_compute; reflexivity|].
  match goal with
  | |- (length (deliveries ?w) < length (deliveries ?w1))%nat
       ∧ step _ ?w2 = None =>
      assert (Hrun : run [CallExport [valid_span]] (new_world example_config) = Some w)
        by (vm_compute; reflexivity);
      assert (Hexport : step (CallExport [valid_stream_span; other_span]) w = Some w1)
        by (vm_compute; reflexivity);
      assert (Hflush : step CallForceFlush w1 = Some w2) by (vm_compute; reflexivity);
      assert (Hlt : (length (deliveries w) < length (deliveries w1))%nat)
        by (vm_compute; lia);
      destruct (flush_covers_export reference_parser example_config _ w w1 w2 _
                  CallForceFlush Hrun Hexport (or_introl eq_refl) Hflush)
        as (awaited & _ & _ & Hnone)
  end.
  split; [exact Hlt|exact (Hnone Hlt)].
Defined.

(** X19. In every world a run reaches, when a [forceFlush] resumes, its
    promise is fulfilled, every delivery it waited for has settled and none of
    them is in [pendingExports]; the flush itself changes neither
    [pendingExports] nor the console, sends nothing and invokes no callback. *)
Theorem flush_resumed (P : JsonParser) (config : FreeplayConfig)
    (events : list Event) (w w' : World) (i k : nat) (awaited : list Handle) :
  run events (new_world config) = Some w →
  tasks w !! i = Some (InForceFlush k awaited) →
  step (Resume i) w = Some w' →
  this w' = this w ∧ deliveries w' = deliveries w ∧ console w' = console w
  ∧ callback_calls w' = callback_calls w
  ∧ async_settled w' !! k = Some (Fulfilled tt)
  ∧ ∀ h, h ∈ awaited → is_Some (settled w' !! h) ∧ (h ∉ pendingExports (this w')).
Proof.
  intros Hrun Ht Hstep.
  pose proof (run_consistent events _ _ (consistent_new_world config) Hrun) as Hw.
  destruct (flush_resumed_effect w w' i k awaited Hw Ht Hstep)
    as (Hthis & Hd & Hs & Hc & Hcb & Hk & Hawaited).
  split; [exact Hthis|]. split; [exact Hd|]. split; [exact Hc|].
  split; [exact Hcb|]. split; [exact Hk|].
  intros h Hh. split.
  - rewrite Hs. by apply Hawaited.
  - rewrite Hthis. intros Hin.
    assert (Hsub : sublist (pendingExports (this w)) (in_flight w)).
    { eapply run_pending_sublist; [apply consistent_new_world|exact Hrun|].
      simpl. constructor. }
    apply (sublist_subseteq _ _ Hsub), elem_of_in_flight in Hin as [_ Hnone].
    destruct (Hawaited h Hh) as [r Hr].
    discriminate (eq_trans (eq_sym Hnone) Hr).
Qed.

Lemma flush_resumed_witness :
  ∃ w w',
    run [CallExport [valid_span]; CallForceFlush;
         RequestCompletes 0 (Fulfilled {| status := 500 |})]
      (new_world example_config) = Some w
    ∧ tasks w !! 1%nat = Some (InForceFlush 0 [0%nat])
    ∧ step (Resume 1) w = Some w'
    ∧ async_settled w' !! 0%nat = Some (Fulfilled tt)
    ∧ (0%nat ∉ pendingExports (this w')).
Proof.
  eexists. eexists. split; [vm_compute; reflexivity|].
  split; [vm_compute; reflexivity|]. split; [vm_compute; reflexivity|].
  match goal with
  | |- async_settled ?w' !! _ = _ ∧ _ =>
      destruct (flush_resumed reference_parser example_config
                  [CallExport [valid_span]; CallForceFlush;
                   RequestCompletes 0 (Fulfilled {| status := 500 |})]
                  _ w' 1%nat 0%nat [0%nat]
                  ltac:(vm_compute; reflexivity) ltac:(vm_compute; reflexivity)
                  ltac:(vm_compute; reflexivity))
        as (_ & _ & _ & _ & Hk & Hawaited)
  end.
  split; [exact Hk|]. apply (Hawaited 0%nat). by left.
Defined.

(** ** Exporting after a shutdown *)


